(** * RootAsRole: the [sr] launcher (src/sr.c)

    A shallow embedding of [sr.c].  The launcher resolves the caller,
    authenticates them, asks the policy store for a capability triple and
    execution options, moves the process into that capability state,
    sanitises environment and PATH, resolves the command and finally
    replaces the process image.

    The C code is sequential and exits through [error(1, 0, ...)] at many
    points, so it is rendered in a small state-and-exit monad.  Everything
    the file calls but does not define (PAM, the XML policy store, libcap,
    the kernel) is gathered in one record of oracles, [World]; the code of
    [sr.c] itself is translated statement by statement. *)

From Stdlib Require Import ZArith List String Ascii Bool Lia.
Import ListNotations.

Local Open Scope string_scope.
Local Open Scope Z_scope.

(** ** Constants *)

(** <errno.h> *)
Definition ENOENT : Z := 2.
Definition ENOEXEC : Z := 8.
Definition EACCES : Z := 13.
Definition EFAULT : Z := 14.
Definition EINVAL : Z := 22.
Definition ENAMETOOLONG : Z := 36.

(** <linux/limits.h> *)
Definition PATH_MAX : nat := 4096.

(** sr.c:18 *)
Definition SR_VERSION : string := "3.0".

(** ** Data *)

(** A [char *]: [None] is the null pointer. *)
Definition ptr : Type := option string.

(** A null-terminated [char *[]] as it lies in memory: the strings followed
    by the terminating null slot. *)
Definition vector (l : list string) : list ptr := map Some l ++ [None].

(** [a[i]] on such an array. Index [length l] is the terminator slot. *)
Definition slot (l : list string) (i : nat) : ptr := nth i (vector l) None.

(** sr.c:21-26 *)
Record arguments_t : Type := mk_arguments {
  role : ptr;
  info : Z;
  version : Z;
  help : Z
}.

(** libcap's [cap_iab_t]: the inheritable, ambient and bounding vectors,
    each a list of capability numbers. *)
Record cap_iab_t : Type := mk_iab {
  iab_i : list Z;
  iab_a : list Z;
  iab_b : list Z
}.

(** Modelled from the spec: [options_t] is declared in a header that is not
    part of the sources at hand; the fields are the four that [main] reads
    ([no_root], [env_keep], [env_check], [path]), typed after the spec's
    ExecutionOptions. *)
Record options_t : Type := mk_options {
  no_root : Z;
  env_keep : list string;
  env_check : list string;
  path : string
}.

(** What a system call hands back: success, or [-1] with [errno] set. *)
Inductive sysret : Type :=
| Ok
| Err (e : Z).

(** Everything observable the process does, in program order. *)
Inductive event : Type :=
| EStdout (line : string)
| EStderr (line : string)
| EAuth (user : string) (ret : Z)
| EPrintRights (user : string) (groups : list string)
| EPrintRightsRole (r : string) (user : string) (groups : list string)
| ESetpcap (enable : bool) (ret : Z)
| ECapIabSetProc (iab : cap_iab_t) (ret : Z)
| ESecurebits (ret : Z)
| EExecve (file : string) (argv : list ptr) (envp : list string) (ret : sysret).

(** How a run ends: [exit(status)] (from [error] or from returning out of
    [main]), a successful [execve], or a crash on a null [char *]. *)
Inductive outcome : Type :=
| Exit (status : Z)
| Replaced (file : string) (argv : list ptr) (envp : list string)
| Fault (callee : string).

(** The part of the process state the program reads or changes. *)
Record state : Type := mk_state {
  st_errno : Z;
  st_setpcap : bool;            (* CAP_SETPCAP raised in the effective set *)
  st_iab : option cap_iab_t;    (* triple installed by cap_iab_set_proc *)
  st_securebits : bool;         (* no-root lockdown active *)
  st_PATH : ptr;                (* getenv("PATH") *)
  st_trace : list event
}.

(** The process as the kernel starts it.  The binary carries its
    capabilities in the permitted set only, so CAP_SETPCAP is not effective
    until the program raises it. *)
Definition boot (PATH : ptr) : state :=
  {| st_errno := 0; st_setpcap := false; st_iab := None;
     st_securebits := false; st_PATH := PATH; st_trace := [] |}.

(** Call sites into the other modules of the project and into libraries;
    each may leave a value in [errno], whatever it returns.  The last one
    is a [realpath] that succeeds: the C library is free to change [errno]
    on the way to a result (glibc leaves EINVAL there once it has tried
    [readlink] on a component that is no symbolic link). *)
Inductive site : Type :=
| SiteGetUsername | SitePam | SiteGroupId | SiteGroupNames | SitePrintRights
| SiteConfig | SiteSetpcap | SiteCapIabSetProc | SiteSecurebits
| SiteFilterEnv | SiteSecurePath | SiteRealpath.

(** Heap allocations of sr.c that can return null. *)
Inductive alloc_site : Type :=
| AllocStrdup | AllocMalloc | AllocReallocarray.

(** ** The environment of the program *)

Record World : Type := mk_World {
  (* getopt_long on this command line: the values it returns before -1,
     each with the optarg it sets, and the final optind (at most argc);
     the line getopt_long itself prints for an option it does not know is
     not part of the trace *)
  getopt_long : list string -> list (ascii * ptr) * nat;
  geteuid : Z;
  get_username : Z -> ptr;
  pam_authenticate_user : string -> Z;
  get_group_id : Z -> Z;
  get_group_names : string -> Z -> Z * list string;
  (* the return value is nonzero exactly on [Some]; the pair is what is
     stored through the two out-parameters *)
  get_settings_from_config :
    string -> list string -> string -> option (cap_iab_t * options_t);
  setpcap_effective : bool -> Z;
  cap_iab_set_proc : cap_iab_t -> Z;
  activates_securebits : Z;
  filter_env_vars :
    list string -> list string -> list string -> Z * list string;
  (* return value and the PATH the process has afterwards *)
  secure_path : ptr -> string -> Z * ptr;
  realpath : string -> string + Z;
  access_X_OK : string -> sysret;
  (* the kernel's answer; for a vector that does not end in a null
     pointer, its answer for these entries and whatever follows them in
     memory *)
  execve : string -> list ptr -> list string -> sysret;
  alloc_ok : alloc_site -> bool;
  errno_left : site -> option Z
}.

(** ** The monad *)

Inductive result (A : Type) : Type :=
| Cont (a : A) (s : state)
| Halt (o : outcome) (s : state).
Arguments Cont {A} a s.
Arguments Halt {A} o s.

Definition M (A : Type) : Type := state -> result A.

Definition ret {A : Type} (a : A) : M A := fun s => Cont a s.

Definition bind {A B : Type} (m : M A) (f : A -> M B) : M B :=
  fun s => match m s with
           | Cont a s' => f a s'
           | Halt o s' => Halt o s'
           end.

Declare Scope sr_scope.
Delimit Scope sr_scope with sr.
Notation "x <- m ;; k" := (bind m (fun x => k))
  (at level 61, m at next level, right associativity) : sr_scope.
Notation "' p <- m ;; k" := (bind m (fun x => let p := x in k))
  (at level 61, p pattern, m at next level, right associativity) : sr_scope.
Notation "m ;; k" := (bind m (fun _ => k))
  (at level 61, right associativity) : sr_scope.
Local Open Scope sr_scope.

Definition halt {A : Type} (o : outcome) : M A := fun s => Halt o s.

Definition log (e : event) (s : state) : state :=
  {| st_errno := st_errno s; st_setpcap := st_setpcap s; st_iab := st_iab s;
     st_securebits := st_securebits s; st_PATH := st_PATH s;
     st_trace := st_trace s ++ [e] |}.

Definition set_errno (e : Z) (s : state) : state :=
  {| st_errno := e; st_setpcap := st_setpcap s; st_iab := st_iab s;
     st_securebits := st_securebits s; st_PATH := st_PATH s;
     st_trace := st_trace s |}.

Definition with_setpcap (b : bool) (s : state) : state :=
  {| st_errno := st_errno s; st_setpcap := b; st_iab := st_iab s;
     st_securebits := st_securebits s; st_PATH := st_PATH s;
     st_trace := st_trace s |}.

Definition with_iab (iab : cap_iab_t) (s : state) : state :=
  {| st_errno := st_errno s; st_setpcap := st_setpcap s; st_iab := Some iab;
     st_securebits := st_securebits s; st_PATH := st_PATH s;
     st_trace := st_trace s |}.

Definition with_securebits (s : state) : state :=
  {| st_errno := st_errno s; st_setpcap := st_setpcap s; st_iab := st_iab s;
     st_securebits := true; st_PATH := st_PATH s; st_trace := st_trace s |}.

Definition with_PATH (p : ptr) (s : state) : state :=
  {| st_errno := st_errno s; st_setpcap := st_setpcap s; st_iab := st_iab s;
     st_securebits := st_securebits s; st_PATH := p; st_trace := st_trace s |}.

Definition emit (e : event) : M unit := fun s => Cont tt (log e s).

Definition errno : M Z := fun s => Cont (st_errno s) s.

Definition getenv_PATH : M ptr := fun s => Cont (st_PATH s) s.

(** [printf] of one line. *)
Definition printf (line : string) : M unit := emit (EStdout line).

(** [error(1, 0, msg)]: one diagnostic line on stderr (the program name
    that [error] puts in front is left out), then [exit(1)].  Every call of
    [error] in sr.c has status 1 and errnum 0. *)
Definition error1 {A : Type} (msg : string) : M A :=
  fun s => Halt (Exit 1) (log (EStderr msg) s).

(** The whole run: returning [r] from [main] is [exit(r)]. *)
Definition run (m : M Z) (s : state) : outcome * state :=
  match m s with
  | Cont r s' => (Exit r, s')
  | Halt o s' => (o, s')
  end.

(** ** String helpers of libc *)

Definition strnlen (s : string) (n : nat) : nat := Nat.min (String.length s) n.

Definition strndup (s : string) (n : nat) : string := substring 0 n s.

(** glibc prints a null [%s] argument as "(null)". *)
Definition show (p : ptr) : string :=
  match p with Some s => s | None => "(null)" end.

(** All tokens [strtok(s, ":")], [strtok(NULL, ":")], ... return, in
    order: the maximal non-empty pieces between colons.  [cur] is the piece
    being read. *)
Fixpoint strtok_from (s cur : string) : list string :=
  match s with
  | EmptyString => match cur with EmptyString => [] | _ => [cur] end
  | String c s' =>
      if Ascii.eqb c ":"%char
      then match cur with
           | EmptyString => strtok_from s' EmptyString
           | _ => cur :: strtok_from s' EmptyString
           end
      else strtok_from s' (cur ++ String c EmptyString)
  end.

Definition strtok_all (s : string) : list string := strtok_from s EmptyString.

(** ** A heap block of [char *] slots

    [reallocarray(NULL, n, sizeof(char * ))] gives [n] slots.  Stores are
    kept with the index they went to, latest first, whether or not the index
    lies inside the block: C does not check, and what matters about the
    vector [sr_execve] builds is where its stores land. *)
Record block : Type := mk_block {
  blk_len : nat;
  blk_mem : list (nat * ptr)
}.

Definition reallocarray (nmemb : nat) : block :=
  {| blk_len := nmemb; blk_mem := [] |}.

Definition blk_store (b : block) (i : nat) (v : ptr) : block :=
  {| blk_len := blk_len b; blk_mem := (i, v) :: blk_mem b |}.

(** What slot [i] holds: [None] when nothing was ever stored there. *)
Fixpoint blk_load (mem : list (nat * ptr)) (i : nat) : option ptr :=
  match mem with
  | [] => None
  | (j, v) :: mem' => if Nat.eqb i j then Some v else blk_load mem' i
  end.

(** [memcpy(b + dst, src, n * sizeof(char * ))]. *)
Fixpoint memcpy (b : block) (dst : nat) (src : list ptr) (n : nat) : block :=
  match n, src with
  | S n', v :: src' => memcpy (blk_store b dst v) (S dst) src' n'
  | _, _ => b
  end.

(** The indices stored to, oldest first. *)
Definition blk_stores (b : block) : list nat := rev (map fst (blk_mem b)).


(** How [execve] reads an argument vector out of the block: strings from
    slot [i] on, up to a null slot.  The flag tells whether a null slot was
    met; reading stops without it at the first slot never stored to, whose
    content is whatever the heap holds. *)
Fixpoint read_vector (fuel : nat) (b : block) (i : nat) : list string * bool :=
  match fuel with
  | O => ([], false)
  | S fuel' =>
      match blk_load (blk_mem b) i with
      | Some (Some str) =>
          let (l, t) := read_vector fuel' b (S i) in (str :: l, t)
      | Some None => ([], true)
      | None => ([], false)
      end
  end.

Definition blk_argv (b : block) : list string * bool :=
  read_vector (S (List.length (blk_mem b))) b 0.

(** The vector [execve] is handed when it is given the block: the strings
    read out of it, with the null behind them when there is one.  Without
    one the list has no final [None], and what the kernel makes of it
    depends on the memory behind the last entry. *)
Definition blk_vector (b : block) : list ptr :=
  let (strs, terminated) := blk_argv b in
  if terminated then (map Some strs ++ [None])%list else map Some strs.

(** sr.c:94-98, the argument vector of the shell. *)
Definition sr_nargv (command : string) (p_argc : nat) (p_argv : list ptr)
  : block :=
  let nargv := reallocarray (p_argc + 1) in
  let nargv := blk_store nargv 0 (Some "sh") in
  let nargv := blk_store nargv 1 (Some command) in
  memcpy nargv 2 p_argv p_argc.

(** ** sr.c *)

Section Program.

Variable w : World.

(** [errno] after a call into another module. *)
Definition clobber (c : site) (s : state) : state :=
  {| st_errno := match errno_left w c with
                 | Some e => e
                 | None => st_errno s
                 end;
     st_setpcap := st_setpcap s; st_iab := st_iab s;
     st_securebits := st_securebits s; st_PATH := st_PATH s;
     st_trace := st_trace s |}.

(** A call into another module: its result, and [errno] as it leaves it. *)
Definition extern {A : Type} (c : site) (a : A) : M A :=
  fun s => Cont a (clobber c s).

(** sr.c:37-68.  The loop over the values [getopt_long] returns. *)
Fixpoint parse_options (rets : list (ascii * ptr)) (args : arguments_t)
  : bool * arguments_t :=
  match rets with
  | [] => (true, args)
  | (c, optarg) :: rets' =>
      if Ascii.eqb c "r"%char then
        parse_options rets'
          (mk_arguments optarg (info args) (version args) (help args))
      else if Ascii.eqb c "i"%char then
        parse_options rets'
          (mk_arguments (role args) 1 (version args) (help args))
      else if Ascii.eqb c "v"%char then
        parse_options rets'
          (mk_arguments (role args) (info args) 1 (help args))
      else if Ascii.eqb c "h"%char then
        parse_options rets'
          (mk_arguments (role args) (info args) (version args) 1)
      else (false, args)
  end.

(** Returns the return value and the updated [argc], [argv], [args]. *)
Definition parse_arguments (argc : nat) (argv : list string)
    (args : arguments_t) : Z * nat * list string * arguments_t :=
  let (rets, optind) := getopt_long w argv in
  match parse_options rets args with
  | (false, args') => (0, argc, argv, args')
  | (true, args') => (1, (argc - optind)%nat, skipn optind argv, args')
  end.

(** [access(p, X_OK)]; a null [p] is refused by the kernel with EFAULT. *)
Definition access (p : ptr) : M Z :=
  fun s => match p with
           | None => Cont (-1) (set_errno EFAULT s)
           | Some f =>
               match access_X_OK w f with
               | Ok => Cont 0 s
               | Err e => Cont (-1) (set_errno e s)
               end
           end.

(** [realpath(p, NULL)]: the canonical path, with [errno] as the library
    leaves it on success, or null with [errno] set to the error. *)
Definition realpath_null (p : string) : M ptr :=
  fun s => match realpath w p with
           | inl r => Cont (Some r) (clobber SiteRealpath s)
           | inr e => Cont None (set_errno e s)
           end.

(** [execve] returns only when it fails, and then returns [-1]. *)
Definition execve_call (file : string) (argv : list ptr) (envp : list string)
  : M Z :=
  fun s => match execve w file argv envp with
           | Ok => Halt (Replaced file argv envp)
                     (log (EExecve file argv envp Ok) s)
           | Err e => Cont (-1)
                        (log (EExecve file argv envp (Err e)) (set_errno e s))
           end.

(** sr.c:77-85, the loop over the directories of PATH. *)
Fixpoint find_in_tokens (tokens : list string) (file : string) : M ptr :=
  match tokens with
  | [] => ret None
  | token :: tokens' =>
      if alloc_ok w AllocMalloc then
        let full_path := token ++ "/" ++ file in
        r <- access (Some full_path) ;;
        if r =? 0 then ret (Some full_path)
        else find_in_tokens tokens' file
      else halt (Fault "snprintf")
  end.

(** sr.c:70-87 *)
Definition find_absolute_path_from_env (file : string) : M ptr :=
  PATH <- getenv_PATH ;;
  match PATH with
  | None => halt (Fault "strdup")
  | Some p =>
      if alloc_ok w AllocStrdup
      then find_in_tokens (strtok_all p) file
      else ret None
  end.

(** sr.c:89-103.  The stores of [sr_nargv] run past the block, which C
    leaves undefined; the model goes on as the machine does, and hands
    [execve] the vector as it was stored, without a terminator. *)
Definition sr_execve (command : string) (p_argc : nat) (p_argv : list ptr)
    (p_envp : list string) : M unit :=
  i <- execve_call command p_argv p_envp ;;
  e <- errno ;;
  if (i =? -1) || (e =? ENOEXEC) then
    if alloc_ok w AllocReallocarray then
      let nargv := sr_nargv command p_argc p_argv in
      _ <- execve_call "/bin/sh" (blk_vector nargv) p_envp ;;
      ret tt
    else ret tt
  else ret tt.

(** Modelled from the spec: [setpcap_effective] lives in capabilities.c,
    which is not among the sources.  It is the spec's
    [set_meta_privilege(bool)]: on success (return 0) CAP_SETPCAP is in the
    effective set exactly when [enable]; on failure the set is unchanged. *)
Definition setpcap_effective_call (enable : bool) : M Z :=
  fun s =>
    let r := setpcap_effective w enable in
    let s1 := clobber SiteSetpcap s in
    Cont r (log (ESetpcap enable r)
              (if r =? 0 then with_setpcap enable s1 else s1)).

(** libcap's [cap_iab_set_proc]: on success (return 0) the triple is the
    process's; on failure nothing changes. *)
Definition cap_iab_set_proc_call (iab : cap_iab_t) : M Z :=
  fun s =>
    let r := cap_iab_set_proc w iab in
    let s1 := clobber SiteCapIabSetProc s in
    Cont r (log (ECapIabSetProc iab r)
              (if r =? 0 then with_iab iab s1 else s1)).

(** Modelled from the spec: [activates_securebits] lives in capabilities.c,
    which is not among the sources.  It is the spec's
    [activate_no_root_lockdown()]: on success (return 0) the lockdown is
    on; on failure nothing changes. *)
Definition activates_securebits_call : M Z :=
  fun s =>
    let r := activates_securebits w in
    let s1 := clobber SiteSecurebits s in
    Cont r (log (ESecurebits r)
              (if r =? 0 then with_securebits s1 else s1)).

(** [secure_path(getenv("PATH"), options->path)]: the return value, and
    PATH as the call leaves it. *)
Definition secure_path_call (PATH : ptr) (secure : string) : M Z :=
  fun s =>
    Cont (fst (secure_path w PATH secure))
         (with_PATH (snd (secure_path w PATH secure))
            (clobber SiteSecurePath s)).

Definition pam_authenticate_user_call (user : string) : M Z :=
  r <- extern SitePam (pam_authenticate_user w user) ;;
  emit (EAuth user r) ;;
  ret r.

(** sr.c:155-168, the capability transition. *)
Definition main_transition (iab : cap_iab_t) (options : options_t) : M unit :=
  r <- setpcap_effective_call true ;;
  if negb (r =? 0) then error1 "Unable to setpcap capability" else
  r <- cap_iab_set_proc_call iab ;;
  if negb (r =? 0) then error1 "Unable to set capabilities" else
  r <- setpcap_effective_call false ;;
  if negb (r =? 0) then error1 "Unable to setpcap capability" else
  if negb (no_root options =? 0) then
    r <- activates_securebits_call ;;
    if negb (r =? 0) then error1 "Unable to activate securebits" else ret tt
  else ret tt.

(** sr.c:179-190, command resolution; [argv0] is [argv[0]]. *)
Definition main_resolve (argv0 : string) : M string :=
  command <- realpath_null argv0 ;;
  e <- errno ;;
  if e =? ENAMETOOLONG then error1 "Path too long" else
  r <- access command ;;
  if negb (r =? 0) then
    command <- find_absolute_path_from_env argv0 ;;
    match command with
    | None => error1 (argv0 ++ " : Command not found")
    | Some c => ret c
    end
  else error1 (argv0 ++ " : Command not found").

(** sr.c:169-191: environment, PATH, resolution, launch. *)
Definition main_launch (options : options_t) (argc : nat)
    (argv : list string) (argv0 : string) (environ : list string) : M unit :=
  ' (res, env) <- extern SiteFilterEnv
                    (filter_env_vars w environ (env_keep options)
                       (env_check options)) ;;
  if res >? 0 then error1 "Unable to filter environment variables" else
  PATH <- getenv_PATH ;;
  res <- secure_path_call PATH (path options) ;;
  if res =? 0 then error1 "Unable to secure path" else
  command <- main_resolve argv0 ;;
  sr_execve command argc (vector argv) env.

(** sr.c:148-191, the execution branch. *)
Definition main_exec (user : string) (groups : list string) (argc : nat)
    (argv : list string) (argv0 : string) (environ : list string) : M unit :=
  let command := strndup argv0 PATH_MAX in
  settings <- extern SiteConfig
                (get_settings_from_config w user groups command) ;;
  match settings with
  | None => error1 "Permission denied"
  | Some (iab, options) =>
      main_transition iab options ;;
      main_launch options argc argv argv0 environ
  end.

(** sr.c:125-198, after the command line is parsed and neither help nor
    version was asked for. *)
Definition main_run (arguments : arguments_t) (argc : nat)
    (argv : list string) (environ : list string) : M Z :=
  let euid := geteuid w in
  user <- extern SiteGetUsername (get_username w euid) ;;
  match user with
  | None => error1 "Unable to retrieve the username of the executor"
  | Some user =>
      auth <- pam_authenticate_user_call user ;;
      if auth =? 0 then error1 "Authentication failed" else
      egid <- extern SiteGroupId (get_group_id w euid) ;;
      ' (failed, groups) <- extern SiteGroupNames
                              (get_group_names w user egid) ;;
      if negb (failed =? 0)
      then error1 "Unable to retrieve the groups of the executor" else
      (if negb (info arguments =? 0) then
         match role arguments with
         | None =>
             extern SitePrintRights tt ;;
             emit (EPrintRights user groups)
         | Some r =>
             extern SitePrintRights tt ;;
             emit (EPrintRightsRole r user groups)
         end
       else
         match slot argv 0 with
         | None => halt (Fault "strnlen")
         | Some argv0 =>
             if Nat.ltb (strnlen argv0 PATH_MAX) PATH_MAX
             then main_exec user groups argc argv argv0 environ
             else error1 "Command too long"
         end) ;;
      ret 0
  end.

(** sr.c:109-199 *)
Definition main (argc : nat) (argv : list string) (environ : list string)
  : M Z :=
  let arguments := mk_arguments None 0 0 0 in
  let '(parsed, argc, argv, arguments) :=
    parse_arguments argc argv arguments in
  if (parsed =? 0) || negb (help arguments =? 0) then
    printf ("Usage: " ++ show (slot argv 0) ++ " [options] [command [args]]") ;;
    printf "Options:" ;;
    printf "  -r, --role <role>      Role to use" ;;
    printf "  -i, --info             Display rights of executor" ;;
    printf "  -v, --version          Display version" ;;
    printf "  -h, --help             Display this help" ;;
    ret 0
  else if negb (version arguments =? 0) then
    printf ("SR version " ++ SR_VERSION) ;;
    ret 0
  else main_run arguments argc argv environ.

(** One invocation of the program from a fresh process. *)
Definition sr (argv : list string) (environ : list string) (PATH : ptr)
  : outcome * state :=
  run (main (List.length argv) argv environ) (boot PATH).

End Program.

(** ** Reading a trace *)

(** The calls to the capability primitives. *)
Definition is_cap_call (e : event) : bool :=
  match e with
  | ESetpcap _ _ | ECapIabSetProc _ _ | ESecurebits _ => true
  | _ => false
  end.

Definition cap_calls (tr : list event) : list event := filter is_cap_call tr.

(** A primitive reports failure by a nonzero return value. *)
Definition call_failed (e : event) : bool :=
  match e with
  | ESetpcap _ r | ECapIabSetProc _ r | ESecurebits r => negb (r =? 0)
  | _ => false
  end.

Definition transition_failed (tr : list event) : bool :=
  existsb call_failed tr.

Definition is_diagnostic (e : event) : bool :=
  match e with EStderr _ => true | _ => false end.

Definition diagnostics (tr : list event) : list event :=
  filter is_diagnostic tr.

Definition is_execve (e : event) : bool :=
  match e with EExecve _ _ _ _ => true | _ => false end.

Definition launches (tr : list event) : list event := filter is_execve tr.

(** The runs of the four-step protocol of sr.c:155-168 for a triple and a
    [no_root] flag, as the sequence of primitive calls with their return
    values; the boolean tells whether the run stopped on a failure. *)
Inductive transition_run (iab : cap_iab_t) (lock : bool)
  : list event -> bool -> Prop :=
| acquire_fails r :
    r <> 0 ->
    transition_run iab lock [ESetpcap true r] true
| install_fails r :
    r <> 0 ->
    transition_run iab lock [ESetpcap true 0; ECapIabSetProc iab r] true
| release_fails r :
    r <> 0 ->
    transition_run iab lock
      [ESetpcap true 0; ECapIabSetProc iab 0; ESetpcap false r] true
| lockdown_fails r :
    lock = true -> r <> 0 ->
    transition_run iab lock
      [ESetpcap true 0; ECapIabSetProc iab 0; ESetpcap false 0; ESecurebits r]
      true
| done_locked :
    lock = true ->
    transition_run iab lock
      [ESetpcap true 0; ECapIabSetProc iab 0; ESetpcap false 0; ESecurebits 0]
      false
| done_unlocked :
    lock = false ->
    transition_run iab lock
      [ESetpcap true 0; ECapIabSetProc iab 0; ESetpcap false 0] false.

(** ** A policy store

    Modelled from the spec: the policy store ([get_settings_from_config],
    xml_manager.c) is not among the sources.  This is [resolve] of the
    spec's PolicyResolver: the candidates are the roles that grant access
    to the user directly or through one of the groups, for the command; a
    role hint restricts the candidates to the role of that name; an exact
    command match wins over a match on the base name, and the first role
    defined wins within a tier; no candidate is [Denied], here [None]. *)
Module Policy.

Record role_t : Type := mk_role {
  name : string;
  users : list string;
  groups : list string;
  command : string;
  iab : cap_iab_t;
  options : options_t
}.

Definition mem (x : string) (l : list string) : bool :=
  existsb (String.eqb x) l.

(** The part of [p] after its last slash. *)
Fixpoint basename_from (p cur : string) : string :=
  match p with
  | EmptyString => cur
  | String c p' =>
      if Ascii.eqb c "/"%char then basename_from p' EmptyString
      else basename_from p' (cur ++ String c EmptyString)
  end.

Definition basename (p : string) : string := basename_from p EmptyString.

Definition grants (r : role_t) (user : string) (gs : list string) : bool :=
  mem user (users r) || existsb (fun g => mem g (groups r)) gs.

Definition hinted (r : role_t) (role_hint : ptr) : bool :=
  match role_hint with
  | None => true
  | Some h => String.eqb h (name r)
  end.

Definition exact (user : string) (gs : list string) (cmd : string)
    (role_hint : ptr) (r : role_t) : bool :=
  grants r user gs && hinted r role_hint && String.eqb cmd (command r).

Definition pattern (user : string) (gs : list string) (cmd : string)
    (role_hint : ptr) (r : role_t) : bool :=
  grants r user gs && hinted r role_hint
  && String.eqb (basename cmd) (basename (command r)).

Definition resolve (policy : list role_t) (user : string) (gs : list string)
    (cmd : string) (role_hint : ptr) : option (cap_iab_t * options_t) :=
  match find (exact user gs cmd role_hint) policy with
  | Some r => Some (iab r, options r)
  | None =>
      match find (pattern user gs cmd role_hint) policy with
      | Some r => Some (iab r, options r)
      | None => None
      end
  end.

Definition subset (a b : list Z) : bool :=
  forallb (fun x => existsb (Z.eqb x) b) a.

(** A triple that holds no capability the other does not. *)
Definition iab_within (a b : cap_iab_t) : bool :=
  subset (iab_i a) (iab_i b) && subset (iab_a a) (iab_a b)
  && subset (iab_b a) (iab_b b).

End Policy.

(** ** A deployment to run the program on

    The spec's end-to-end scene: user alice, in group ops; role ops-role
    lets group ops run shutdown with CAP_SYS_BOOT ambient, keeping TERM and
    LANG, on the fixed path /usr/sbin:/usr/bin.  A second role, viewer,
    lets alice run shutdown with no capability at all. *)
Module Scene.

Definition CAP_SYS_BOOT : Z := 22.

Definition ops_options : options_t :=
  mk_options 0 ["TERM"; "LANG"] [] "/usr/sbin:/usr/bin".

Definition ops_role : Policy.role_t :=
  Policy.mk_role "ops-role" [] ["ops"] "/usr/sbin/shutdown"
    (mk_iab [] [CAP_SYS_BOOT] []) ops_options.

Definition viewer_role : Policy.role_t :=
  Policy.mk_role "viewer" ["alice"] [] "/usr/sbin/shutdown"
    (mk_iab [] [] []) ops_options.

Definition policy : list Policy.role_t := [ops_role; viewer_role].

(** [getopt_long] on command lines that write each option as a short
    option in a word of its own, up to the first word that is not an
    option; [n] is the index of the word being read.  Bundled short
    options and the long forms, which [getopt_long] also accepts, are not
    read by this stand-in. *)
Fixpoint scan (words : list string) (n : nat) : list (ascii * ptr) * nat :=
  match words with
  | [] => ([], n)
  | word :: rest =>
      if String.eqb word "-r" then
        match rest with
        | [] => ([("?"%char, None)], S n)
        | a :: rest' =>
            let (l, k) := scan rest' (S (S n)) in (("r"%char, Some a) :: l, k)
        end
      else if String.eqb word "-i" then
        let (l, k) := scan rest (S n) in (("i"%char, None) :: l, k)
      else if String.eqb word "-v" then
        let (l, k) := scan rest (S n) in (("v"%char, None) :: l, k)
      else if String.eqb word "-h" then
        let (l, k) := scan rest (S n) in (("h"%char, None) :: l, k)
      else if String.eqb word "--" then ([], S n)
      else if String.prefix "-" word then ([("?"%char, None)], S n)
      else ([], n)
  end.

(** The name of a NAME=value entry of the environment. *)
Fixpoint var_name (entry : string) : string :=
  match entry with
  | EmptyString => EmptyString
  | String c entry' =>
      if Ascii.eqb c "="%char then EmptyString else String c (var_name entry')
  end.

Definition world : World :=
  {| getopt_long := fun argv => scan (tl argv) 1;
     geteuid := 1000;
     get_username := fun uid => if uid =? 1000 then Some "alice" else None;
     pam_authenticate_user := fun user => if String.eqb user "alice" then 1 else 0;
     get_group_id := fun _ => 1000;
     get_group_names := fun _ _ => (0, ["alice"; "ops"]);
     get_settings_from_config :=
       fun user gs cmd => Policy.resolve policy user gs cmd None;
     setpcap_effective := fun _ => 0;
     cap_iab_set_proc := fun _ => 0;
     activates_securebits := 0;
     filter_env_vars :=
       fun env keep _ =>
         (0, filter (fun e => Policy.mem (var_name e) keep) env);
     secure_path := fun _ secure => (1, Some secure);
     realpath :=
       fun p => if String.prefix "/" p then inl p else inr ENOENT;
     access_X_OK :=
       fun f => if Policy.mem f ["/usr/sbin/shutdown"; "/bin/sh"]
                then Ok else Err ENOENT;
     execve :=
       fun _ args _ =>
         match last args (Some EmptyString) with
         | None => Ok
         | Some _ => Err EFAULT
         end;
     alloc_ok := fun _ => true;
     errno_left :=
       fun c => match c with SiteRealpath => Some EINVAL | _ => None end |}.

Definition environ : list string :=
  ["TERM=xterm"; "LANG=C"; "EVIL=1"; "PATH=/tmp"].


Definition PATH : ptr := Some "/tmp".

(** The same deployment with one collaborator replaced. *)
Definition with_execve (f : string -> list ptr -> list string -> sysret)
    (w : World) : World :=
  mk_World (getopt_long w) (geteuid w) (get_username w)
    (pam_authenticate_user w) (get_group_id w) (get_group_names w)
    (get_settings_from_config w) (setpcap_effective w) (cap_iab_set_proc w)
    (activates_securebits w) (filter_env_vars w) (secure_path w)
    (realpath w) (access_X_OK w) f (alloc_ok w) (errno_left w).


Definition with_cap_iab_set_proc (f : cap_iab_t -> Z) (w : World) : World :=
  mk_World (getopt_long w) (geteuid w) (get_username w)
    (pam_authenticate_user w) (get_group_id w) (get_group_names w)
    (get_settings_from_config w) (setpcap_effective w) f
    (activates_securebits w) (filter_env_vars w) (secure_path w)
    (realpath w) (access_X_OK w) (execve w) (alloc_ok w) (errno_left w).

Definition with_access (f : string -> sysret) (w : World) : World :=
  mk_World (getopt_long w) (geteuid w) (get_username w)
    (pam_authenticate_user w) (get_group_id w) (get_group_names w)
    (get_settings_from_config w) (setpcap_effective w) (cap_iab_set_proc w)
    (activates_securebits w) (filter_env_vars w) (secure_path w)
    (realpath w) f (execve w) (alloc_ok w) (errno_left w).

Definition with_alloc_ok (f : alloc_site -> bool) (w : World) : World :=
  mk_World (getopt_long w) (geteuid w) (get_username w)
    (pam_authenticate_user w) (get_group_id w) (get_group_names w)
    (get_settings_from_config w) (setpcap_effective w) (cap_iab_set_proc w)
    (activates_securebits w) (filter_env_vars w) (secure_path w)
    (realpath w) (access_X_OK w) (execve w) f (errno_left w).

Definition with_pam (f : string -> Z) (w : World) : World :=
  mk_World (getopt_long w) (geteuid w) (get_username w)
    f (get_group_id w) (get_group_names w)
    (get_settings_from_config w) (setpcap_effective w) (cap_iab_set_proc w)
    (activates_securebits w) (filter_env_vars w) (secure_path w)
    (realpath w) (access_X_OK w) (execve w) (alloc_ok w) (errno_left w).

End Scene.

(** ** Shapes of runs *)

(** [s'] differs from [s] at most in [errno], PATH and events that are not
    calls to the capability primitives. *)
Definition frame (s s' : state) : Prop :=
  st_setpcap s' = st_setpcap s /\ st_iab s' = st_iab s /\
  st_securebits s' = st_securebits s /\
  exists post, st_trace s' = (st_trace s ++ post)%list /\ cap_calls post = [].

Definition state_of {A : Type} (r : result A) : state :=
  match r with Cont _ s => s | Halt _ s => s end.

Definition quiet {A : Type} (m : M A) : Prop :=
  forall s, frame s (state_of (m s)).

(** Whether the options ask for the lockdown (sr.c:164). *)
Definition lock (options : options_t) : bool := negb (no_root options =? 0).

(** CAP_SETPCAP in the effective set after a sequence of calls, starting
    without it: each successful [setpcap_effective(b)] makes it [b]. *)
Definition raised_after (calls : list event) : bool :=
  fold_left (fun b e => match e with
                        | ESetpcap b' 0 => b'
                        | _ => b
                        end) calls false.

(** What a run from [boot] can look like, by how far it got with the
    capability transition: it never started it, it stopped inside it, or it
    went through it.  [o] is [None] while the program is still running. *)
Inductive shape (w : World) : option outcome -> state -> Prop :=
| shape_before o s :
    cap_calls (st_trace s) = [] ->
    st_setpcap s = false -> st_iab s = None -> st_securebits s = false ->
    shape w o s
| shape_failed user groups command iab options pre calls msg s :
    get_settings_from_config w user groups command = Some (iab, options) ->
    st_trace s = (pre ++ calls ++ [EStderr msg])%list ->
    cap_calls pre = [] ->
    transition_run iab (lock options) calls true ->
    st_setpcap s = raised_after calls ->
    shape w (Some (Exit 1)) s
| shape_done user groups command iab options pre calls post o s :
    get_settings_from_config w user groups command = Some (iab, options) ->
    st_trace s = (pre ++ calls ++ post)%list ->
    cap_calls pre = [] -> cap_calls post = [] ->
    transition_run iab (lock options) calls false ->
    st_setpcap s = false -> st_iab s = Some iab ->
    st_securebits s = lock options ->
    shape w o s.

(** A state in which the capability primitives were never called. *)
Definition pristine (s : state) : Prop :=
  cap_calls (st_trace s) = [] /\ st_setpcap s = false /\
  st_iab s = None /\ st_securebits s = false.

Definition outcome_of {A : Type} (r : result A) : option outcome :=
  match r with Cont _ _ => None | Halt o _ => Some o end.

(** From a pristine state, [m] ends in one of the three shapes. *)
Definition shaped {A : Type} (w : World) (m : M A) : Prop :=
  forall s, pristine s -> shape w (outcome_of (m s)) (state_of (m s)).

(** [m] is silent unless it ends the process through [error]: when it
    returns, with a value that satisfies [ok], or ends in any other way, it
    has printed no diagnostic; when it ends with status 1 it has printed
    one, and that is the last thing it did.  It ends with no other
    status. *)
Definition reports {A : Type} (m : M A) (ok : A -> Prop) : Prop :=
  forall s,
    match m s with
    | Cont a s' =>
        ok a /\ diagnostics (st_trace s') = diagnostics (st_trace s)
    | Halt o s' =>
        (o = Exit 1 /\
         exists pre msg,
           st_trace s' = (pre ++ [EStderr msg])%list /\
           diagnostics pre = diagnostics (st_trace s)) \/
        ((forall n, o <> Exit n) /\
         diagnostics (st_trace s') = diagnostics (st_trace s))
    end.

Definition any {A : Type} (a : A) : Prop := True.

(** ** Options, tokens and launches *)

(** The option characters the [switch] of sr.c:48-60 has a case for. *)
Definition known_option (c : ascii) : bool :=
  Ascii.eqb c "r"%char || Ascii.eqb c "i"%char
  || Ascii.eqb c "v"%char || Ascii.eqb c "h"%char.

Definition all_known (rets : list (ascii * ptr)) : bool :=
  forallb (fun r => known_option (fst r)) rets.

Definition has_option (c : ascii) (rets : list (ascii * ptr)) : bool :=
  existsb (fun r => Ascii.eqb (fst r) c) rets.

(** The argument of the last [-r] among [rets], [dflt] when there is none. *)
Definition last_role (rets : list (ascii * ptr)) (dflt : ptr) : ptr :=
  fold_left (fun acc r => if Ascii.eqb (fst r) "r"%char then snd r else acc)
    rets dflt.

(** The six lines of sr.c:113-118 for a given [argv[0]]. *)
Definition usage (argv0 : ptr) : list event :=
  [EStdout ("Usage: " ++ show argv0 ++ " [options] [command [args]]")%string;
   EStdout "Options:";
   EStdout "  -r, --role <role>      Role to use";
   EStdout "  -i, --info             Display rights of executor";
   EStdout "  -v, --version          Display version";
   EStdout "  -h, --help             Display this help"].

(** A string without a colon. *)
Fixpoint colon_free (s : string) : bool :=
  match s with
  | EmptyString => true
  | String c s' => negb (Ascii.eqb c ":"%char) && colon_free s'
  end.

(** A string of colons only; the empty string is one. *)
Fixpoint colon_only (s : string) : bool :=
  match s with
  | EmptyString => true
  | String c s' => Ascii.eqb c ":"%char && colon_only s'
  end.

(** A directory of PATH as [strtok] hands it over: not empty, no colon. *)
Definition directory (t : string) : Prop :=
  t <> EmptyString /\ colon_free t = true.

(** The path [snprintf] builds at sr.c:79. *)
Definition candidate (dir file : string) : string :=
  (dir ++ "/" ++ file)%string.

Definition executable (w : World) (f : string) : bool :=
  match access_X_OK w f with Ok => true | Err _ => false end.

(** The command line got the program past sr.c:138: the options parsed,
    neither help nor version was asked for, the caller has a name, the
    authentication returned [auth], not zero, and the groups were found.
    [rest] is what is left of the command line. *)
Definition identified (w : World) (argv : list string)
    (arguments : arguments_t) (rest : list string) (user : string)
    (auth : Z) (groups : list string) : Prop :=
  (exists argc',
      parse_arguments w (List.length argv) argv (mk_arguments None 0 0 0)
      = (1, argc', rest, arguments)) /\
  help arguments = 0 /\ version arguments = 0 /\
  get_username w (geteuid w) = Some user /\
  pam_authenticate_user w user = auth /\ auth <> 0 /\
  get_group_names w user (get_group_id w (geteuid w)) = (0, groups).

(** The process at sr.c:140, after the four calls that identify the
    caller. *)
Definition after_identity (w : World) (user : string) (auth : Z) (PATH : ptr)
  : state :=
  clobber w SiteGroupNames
    (clobber w SiteGroupId
       (log (EAuth user auth)
          (clobber w SitePam (clobber w SiteGetUsername (boot PATH))))).

(** The environment handed to the command: what [filter_env_vars] stored
    through its last parameter. *)
Definition filtered (w : World) (environ : list string) (options : options_t)
  : Z * list string :=
  filter_env_vars w environ (env_keep options) (env_check options).

(** [c] is the candidate of a directory of the PATH [P], and executable. *)
Definition resolved (w : World) (P : ptr) (argv0 c : string) : Prop :=
  exists p dir,
    P = Some p /\ In dir (strtok_all p) /\ c = candidate dir argv0 /\
    access_X_OK w c = Ok.

(** The argument vector of the shell as sr.c:94-98 stores it: "sh", the
    command, the words of the command line, and no terminator. *)
Definition shell_argv (c : string) (rest : list string) : list ptr :=
  map Some ("sh" :: c :: rest)%string.

(** What sr.c:169-191 adds to the trace, and how it ends ([None]: it comes
    back to [main]), for granted [options], the remaining command line
    [rest], its first word [argv0] and the PATH [P] the process has when it
    gets there.  Each [execve] event carries the answer of the kernel to
    that very call. *)
Inductive launch_run (w : World) (options : options_t)
    (environ : list string) (P : ptr) (rest : list string) (argv0 : string)
  : list event -> option outcome -> Prop :=
| launch_no_environment :
    fst (filtered w environ options) > 0 ->
    launch_run w options environ P rest argv0
      [EStderr "Unable to filter environment variables"] (Some (Exit 1))
| launch_no_path :
    fst (filtered w environ options) <= 0 ->
    fst (secure_path w P (path options)) = 0 ->
    launch_run w options environ P rest argv0
      [EStderr "Unable to secure path"] (Some (Exit 1))
| launch_too_long :
    fst (filtered w environ options) <= 0 ->
    fst (secure_path w P (path options)) <> 0 ->
    realpath w argv0 = inr ENAMETOOLONG \/
    (exists c, realpath w argv0 = inl c) ->
    launch_run w options environ P rest argv0
      [EStderr "Path too long"] (Some (Exit 1))
| launch_not_found :
    fst (filtered w environ options) <= 0 ->
    fst (secure_path w P (path options)) <> 0 ->
    realpath w argv0 <> inr ENAMETOOLONG ->
    launch_run w options environ P rest argv0
      [EStderr (argv0 ++ " : Command not found")] (Some (Exit 1))
| launch_fault callee :
    fst (filtered w environ options) <= 0 ->
    fst (secure_path w P (path options)) <> 0 ->
    realpath w argv0 <> inr ENAMETOOLONG ->
    launch_run w options environ P rest argv0 [] (Some (Fault callee))
| launch_replaced c :
    fst (filtered w environ options) <= 0 ->
    fst (secure_path w P (path options)) <> 0 ->
    realpath w argv0 <> inr ENAMETOOLONG ->
    resolved w (snd (secure_path w P (path options))) argv0 c ->
    execve w c (vector rest) (snd (filtered w environ options)) = Ok ->
    launch_run w options environ P rest argv0
      [EExecve c (vector rest) (snd (filtered w environ options)) Ok]
      (Some (Replaced c (vector rest) (snd (filtered w environ options))))
| launch_returned c e :
    fst (filtered w environ options) <= 0 ->
    fst (secure_path w P (path options)) <> 0 ->
    realpath w argv0 <> inr ENAMETOOLONG ->
    resolved w (snd (secure_path w P (path options))) argv0 c ->
    execve w c (vector rest) (snd (filtered w environ options)) = Err e ->
    alloc_ok w AllocReallocarray = false ->
    launch_run w options environ P rest argv0
      [EExecve c (vector rest) (snd (filtered w environ options)) (Err e)]
      None
| launch_shell c e :
    fst (filtered w environ options) <= 0 ->
    fst (secure_path w P (path options)) <> 0 ->
    realpath w argv0 <> inr ENAMETOOLONG ->
    resolved w (snd (secure_path w P (path options))) argv0 c ->
    execve w c (vector rest) (snd (filtered w environ options)) = Err e ->
    alloc_ok w AllocReallocarray = true ->
    execve w "/bin/sh" (shell_argv c rest)
      (snd (filtered w environ options)) = Ok ->
    launch_run w options environ P rest argv0
      [EExecve c (vector rest) (snd (filtered w environ options)) (Err e);
       EExecve "/bin/sh" (shell_argv c rest)
         (snd (filtered w environ options)) Ok]
      (Some (Replaced "/bin/sh" (shell_argv c rest)
               (snd (filtered w environ options))))
| launch_shell_failed c e e' :
    fst (filtered w environ options) <= 0 ->
    fst (secure_path w P (path options)) <> 0 ->
    realpath w argv0 <> inr ENAMETOOLONG ->
    resolved w (snd (secure_path w P (path options))) argv0 c ->
    execve w c (vector rest) (snd (filtered w environ options)) = Err e ->
    alloc_ok w AllocReallocarray = true ->
    execve w "/bin/sh" (shell_argv c rest)
      (snd (filtered w environ options)) = Err e' ->
    launch_run w options environ P rest argv0
      [EExecve c (vector rest) (snd (filtered w environ options)) (Err e);
       EExecve "/bin/sh" (shell_argv c rest)
         (snd (filtered w environ options)) (Err e')]
      None.

(** Closes [frame s s'] when [s'] has the flags and the trace of [s]. *)
Ltac same_frame :=
  repeat split; exists []; simpl; now rewrite app_nil_r.


(** * Properties *)

Local Open Scope list_scope.

(** ** Traces *)

Lemma cap_calls_app (a b : list event) :
  cap_calls (a ++ b) = cap_calls a ++ cap_calls b.
Proof. apply filter_app. Qed.

Lemma diagnostics_app (a b : list event) :
  diagnostics (a ++ b) = diagnostics a ++ diagnostics b.
Proof. apply filter_app. Qed.

Lemma transition_failed_app (a b : list event) :
  transition_failed (a ++ b) = transition_failed a || transition_failed b.
Proof. apply existsb_app. Qed.

Lemma call_failed_is_cap_call (e : event) :
  call_failed e = true -> is_cap_call e = true.
Proof. destruct e; simpl; congruence. Qed.

Lemma transition_failed_cap_calls (tr : list event) :
  transition_failed (cap_calls tr) = transition_failed tr.
Proof.
  induction tr as [|e tr IH]; [reflexivity|].
  unfold cap_calls, transition_failed in *. simpl.
  destruct (is_cap_call e) eqn:E; simpl; rewrite IH.
  - reflexivity.
  - destruct (call_failed e) eqn:F; [|reflexivity].
    apply call_failed_is_cap_call in F. congruence.
Qed.

Lemma transition_run_cap_calls iab lock calls failed :
  transition_run iab lock calls failed -> cap_calls calls = calls.
Proof. destruct 1; reflexivity. Qed.

Lemma transition_run_failed iab lock calls failed :
  transition_run iab lock calls failed -> transition_failed calls = failed.
Proof.
  destruct 1; unfold transition_failed; simpl;
    repeat match goal with
           | H : ?r <> 0 |- _ => apply Z.eqb_neq in H; rewrite H
           end; reflexivity.
Qed.

Lemma transition_run_nonempty iab lock calls failed :
  transition_run iab lock calls failed -> calls <> [].
Proof. destruct 1; discriminate. Qed.

(** ** Steps that leave the capability state alone *)

Lemma frame_refl s : frame s s.
Proof. same_frame. Qed.

Lemma frame_trans s1 s2 s3 : frame s1 s2 -> frame s2 s3 -> frame s1 s3.
Proof.
  intros (A1 & B1 & C1 & p1 & T1 & N1) (A2 & B2 & C2 & p2 & T2 & N2).
  repeat split; try congruence.
  exists (p1 ++ p2). split.
  - now rewrite T2, T1, app_assoc.
  - now rewrite cap_calls_app, N1, N2.
Qed.

Lemma frame_set_errno e s : frame s (set_errno e s).
Proof. same_frame. Qed.

Lemma frame_log e s : is_cap_call e = false -> frame s (log e s).
Proof.
  intros H. repeat split. exists [e]. split; [reflexivity|].
  unfold cap_calls. simpl. now rewrite H.
Qed.

Lemma quiet_ret {A : Type} (a : A) : quiet (ret a).
Proof. intros s. apply frame_refl. Qed.

Lemma quiet_halt {A : Type} (o : outcome) : quiet (@halt A o).
Proof. intros s. apply frame_refl. Qed.

Lemma quiet_bind {A B : Type} (m : M A) (f : A -> M B) :
  quiet m -> (forall a, quiet (f a)) -> quiet (bind m f).
Proof.
  intros Hm Hf s. unfold bind. specialize (Hm s).
  destruct (m s) as [a s'|o s']; simpl in *; [|exact Hm].
  eapply frame_trans; [exact Hm|apply Hf].
Qed.

Lemma quiet_error1 {A : Type} (msg : string) : quiet (@error1 A msg).
Proof. intros s. now apply frame_log. Qed.

Lemma quiet_errno : quiet errno.
Proof. intros s. apply frame_refl. Qed.

Lemma quiet_getenv_PATH : quiet getenv_PATH.
Proof. intros s. apply frame_refl. Qed.

Lemma quiet_if {A : Type} (b : bool) (m1 m2 : M A) :
  quiet m1 -> quiet m2 -> quiet (if b then m1 else m2).
Proof. now destruct b. Qed.

Section Quiet.

Variable w : World.

Lemma quiet_extern {A : Type} (c : site) (a : A) : quiet (extern w c a).
Proof. intros s. same_frame. Qed.

Lemma quiet_access (p : ptr) : quiet (access w p).
Proof.
  intros s. unfold access.
  destruct p as [f|]; [destruct (access_X_OK w f)|]; same_frame.
Qed.

Lemma quiet_realpath_null (p : string) : quiet (realpath_null w p).
Proof.
  intros s. unfold realpath_null. destruct (realpath w p); same_frame.
Qed.

Lemma quiet_execve_call file argv envp : quiet (execve_call w file argv envp).
Proof.
  intros s. unfold execve_call. destruct (execve w file argv envp); simpl.
  - now apply frame_log.
  - eapply frame_trans; [apply frame_set_errno|now apply frame_log].
Qed.

Lemma quiet_secure_path_call p secure : quiet (secure_path_call w p secure).
Proof. intros s. same_frame. Qed.

Lemma quiet_find_in_tokens tokens file : quiet (find_in_tokens w tokens file).
Proof.
  induction tokens as [|token tokens IH]; simpl.
  - apply quiet_ret.
  - apply quiet_if; [|apply quiet_halt].
    apply quiet_bind; [apply quiet_access|].
    intros r. apply quiet_if; [apply quiet_ret|exact IH].
Qed.

Lemma quiet_find_absolute_path_from_env file :
  quiet (find_absolute_path_from_env w file).
Proof.
  unfold find_absolute_path_from_env.
  apply quiet_bind; [apply quiet_getenv_PATH|].
  intros [p|]; [|apply quiet_halt].
  apply quiet_if; [apply quiet_find_in_tokens|apply quiet_ret].
Qed.

Lemma quiet_main_resolve argv0 : quiet (main_resolve w argv0).
Proof.
  unfold main_resolve.
  apply quiet_bind; [apply quiet_realpath_null|]. intros command.
  apply quiet_bind; [apply quiet_errno|]. intros e.
  apply quiet_if; [apply quiet_error1|].
  apply quiet_bind; [apply quiet_access|]. intros r.
  apply quiet_if; [|apply quiet_error1].
  apply quiet_bind; [apply quiet_find_absolute_path_from_env|].
  intros [c|]; [apply quiet_ret|apply quiet_error1].
Qed.

Lemma quiet_sr_execve command p_argc p_argv p_envp :
  quiet (sr_execve w command p_argc p_argv p_envp).
Proof.
  unfold sr_execve.
  apply quiet_bind; [apply quiet_execve_call|]. intros i.
  apply quiet_bind; [apply quiet_errno|]. intros e.
  apply quiet_if; [|apply quiet_ret].
  apply quiet_if; [|apply quiet_ret].
  apply quiet_bind; [apply quiet_execve_call|]. intros _. apply quiet_ret.
Qed.

Lemma quiet_main_launch options argc argv argv0 environ :
  quiet (main_launch w options argc argv argv0 environ).
Proof.
  unfold main_launch.
  apply quiet_bind; [apply quiet_extern|]. intros [res env].
  apply quiet_if; [apply quiet_error1|].
  apply quiet_bind; [apply quiet_getenv_PATH|]. intros p.
  apply quiet_bind; [apply quiet_secure_path_call|]. intros res'.
  apply quiet_if; [apply quiet_error1|].
  apply quiet_bind; [apply quiet_main_resolve|]. intros command.
  apply quiet_sr_execve.
Qed.

End Quiet.

(** ** The capability transition *)

Section Transition.

Variable w : World.

Lemma main_transition_runs iab options s :
  st_setpcap s = false -> st_securebits s = false ->
  match main_transition w iab options s with
  | Cont _ s' =>
      exists calls,
        transition_run iab (lock options) calls false /\
        st_trace s' = st_trace s ++ calls /\
        st_setpcap s' = false /\ st_iab s' = Some iab /\
        st_securebits s' = lock options
  | Halt o s' =>
      o = Exit 1 /\
      exists calls msg,
        transition_run iab (lock options) calls true /\
        st_trace s' = st_trace s ++ calls ++ [EStderr msg] /\
        st_setpcap s' = raised_after calls
  end.
Proof.
  intros Hcap Hsec.
  unfold main_transition, bind, setpcap_effective_call, cap_iab_set_proc_call,
    activates_securebits_call, error1, ret, lock.
  destruct (setpcap_effective w true =? 0) eqn:E1; simpl.
  2:{ split; [reflexivity|]. apply Z.eqb_neq in E1.
      exists [ESetpcap true (setpcap_effective w true)],
        "Unable to setpcap capability"%string.
      split; [now apply acquire_fails|].
      split; [now rewrite <- app_assoc|].
      unfold raised_after. simpl.
      destruct (setpcap_effective w true); congruence. }
  apply Z.eqb_eq in E1. rewrite E1.
  destruct (cap_iab_set_proc w iab =? 0) eqn:E2; simpl.
  2:{ split; [reflexivity|]. apply Z.eqb_neq in E2.
      exists [ESetpcap true 0; ECapIabSetProc iab (cap_iab_set_proc w iab)],
        "Unable to set capabilities"%string.
      split; [now apply install_fails|].
      split; [now rewrite <- !app_assoc|]. reflexivity. }
  apply Z.eqb_eq in E2. rewrite E2.
  destruct (setpcap_effective w false =? 0) eqn:E3; simpl.
  2:{ split; [reflexivity|]. apply Z.eqb_neq in E3.
      exists [ESetpcap true 0; ECapIabSetProc iab 0;
              ESetpcap false (setpcap_effective w false)],
        "Unable to setpcap capability"%string.
      split; [now apply release_fails|].
      split; [now rewrite <- !app_assoc|].
      unfold raised_after. simpl.
      destruct (setpcap_effective w false); congruence. }
  apply Z.eqb_eq in E3. rewrite E3.
  destruct (no_root options =? 0) eqn:E4; simpl.
  { exists [ESetpcap true 0; ECapIabSetProc iab 0; ESetpcap false 0].
    split; [now apply done_unlocked|].
    split; [now rewrite <- !app_assoc|]. auto. }
  destruct (activates_securebits w =? 0) eqn:E5; simpl.
  2:{ split; [reflexivity|]. apply Z.eqb_neq in E5.
      exists [ESetpcap true 0; ECapIabSetProc iab 0; ESetpcap false 0;
              ESecurebits (activates_securebits w)],
        "Unable to activate securebits"%string.
      split; [now apply lockdown_fails|].
      split; [now rewrite <- !app_assoc|]. reflexivity. }
  apply Z.eqb_eq in E5. rewrite E5.
  exists [ESetpcap true 0; ECapIabSetProc iab 0; ESetpcap false 0;
          ESecurebits 0].
  split; [now apply done_locked|].
  split; [now rewrite <- !app_assoc|]. auto.
Qed.

End Transition.

(** ** The shape of every run *)

Section Shapes.

Variable w : World.

Lemma pristine_boot PATH : pristine (boot PATH).
Proof. repeat split. Qed.

Lemma pristine_frame s s' : pristine s -> frame s s' -> pristine s'.
Proof.
  intros (T & A & B & C) (A' & B' & C' & post & T' & N).
  repeat split; try congruence.
  now rewrite T', cap_calls_app, T, N.
Qed.

Lemma shape_pristine o s : pristine s -> shape w o s.
Proof. intros (T & A & B & C). now apply shape_before. Qed.

Lemma shape_running o s : shape w None s -> shape w o s.
Proof.
  inversion 1; subst.
  - now apply shape_before.
  - eapply shape_done; eassumption.
Qed.

Lemma shaped_quiet {A : Type} (m : M A) : quiet m -> shaped w m.
Proof.
  intros Q s P. apply shape_pristine. eapply pristine_frame; [exact P|apply Q].
Qed.

Lemma shaped_bind {A B : Type} (m : M A) (f : A -> M B) :
  quiet m -> (forall a, shaped w (f a)) -> shaped w (bind m f).
Proof.
  intros Q F s P. unfold bind. specialize (Q s).
  destruct (m s) as [a s'|o s'] eqn:E; simpl in *.
  - apply F. eapply pristine_frame; eassumption.
  - apply shape_pristine. eapply pristine_frame; eassumption.
Qed.

Lemma shaped_then_ret {A B : Type} (m : M A) (b : B) :
  shaped w m -> shaped w (bind m (fun _ => ret b)).
Proof.
  intros S s P. unfold bind, ret. specialize (S s P).
  destruct (m s); exact S.
Qed.

Lemma shaped_if {A : Type} (b : bool) (m1 m2 : M A) :
  shaped w m1 -> shaped w m2 -> shaped w (if b then m1 else m2).
Proof. now destruct b. Qed.

Lemma quiet_emit e : is_cap_call e = false -> quiet (emit e).
Proof. intros H s. now apply frame_log. Qed.

Lemma quiet_pam user : quiet (pam_authenticate_user_call w user).
Proof.
  unfold pam_authenticate_user_call.
  apply quiet_bind; [apply quiet_extern|]. intros r.
  apply quiet_bind; [now apply quiet_emit|]. intros _. apply quiet_ret.
Qed.

Lemma shaped_main_exec user groups argc argv argv0 environ :
  shaped w (main_exec w user groups argc argv argv0 environ).
Proof.
  intros s P. unfold main_exec, bind, extern.
  assert (P1 : pristine (clobber w SiteConfig s)).
  { eapply pristine_frame; [exact P|]. same_frame. }
  destruct (get_settings_from_config w user groups (strndup argv0 PATH_MAX))
    as [[iab options]|] eqn:E.
  2:{ apply shape_pristine. eapply pristine_frame; [exact P1|].
      now apply frame_log. }
  destruct P1 as (T & A & B & C).
  pose proof (main_transition_runs w iab options _ A C) as R.
  destruct (main_transition w iab options (clobber w SiteConfig s))
    as [[] s2|o s2].
  - destruct R as (calls & R & T2 & A2 & B2 & C2).
    pose proof (quiet_main_launch w options argc argv argv0 environ s2) as Q.
    destruct Q as (A3 & B3 & C3 & post & T3 & N3).
    eapply shape_done with (pre := st_trace (clobber w SiteConfig s));
      try eassumption; try congruence.
    rewrite T3, T2. now rewrite <- app_assoc.
  - destruct R as (-> & calls & msg & R & T2 & A2). simpl.
    eapply shape_failed; eassumption.
Qed.

Lemma shaped_main_run arguments argc argv environ :
  shaped w (main_run w arguments argc argv environ).
Proof.
  unfold main_run.
  apply shaped_bind; [apply quiet_extern|]. intros [user|].
  2:{ apply shaped_quiet, quiet_error1. }
  apply shaped_bind; [apply quiet_pam|]. intros auth.
  apply shaped_if; [apply shaped_quiet, quiet_error1|].
  apply shaped_bind; [apply quiet_extern|]. intros egid.
  apply shaped_bind; [apply quiet_extern|]. intros [failed groups].
  apply shaped_if; [apply shaped_quiet, quiet_error1|].
  apply shaped_then_ret.
  apply shaped_if.
  - apply shaped_quiet.
    destruct (role arguments);
      (apply quiet_bind; [apply quiet_extern|]; intros _;
       now apply quiet_emit).
  - destruct (slot argv 0) as [argv0|]; [|apply shaped_quiet, quiet_halt].
    apply shaped_if; [apply shaped_main_exec|apply shaped_quiet, quiet_error1].
Qed.

Lemma quiet_printf line : quiet (printf line).
Proof. now apply quiet_emit. Qed.

Lemma shaped_main argc argv environ : shaped w (main w argc argv environ).
Proof.
  unfold main.
  destruct (parse_arguments w argc argv (mk_arguments None 0 0 0))
    as [[[parsed argc'] argv'] arguments].
  apply shaped_if; [|apply shaped_if; [|apply shaped_main_run]];
    apply shaped_quiet;
    repeat (apply quiet_bind; [apply quiet_printf|]; intros _);
    apply quiet_ret.
Qed.

(** Every run of the program has one of the three shapes. *)
Lemma sr_shape argv environ PATH :
  shape w (Some (fst (sr w argv environ PATH)))
    (snd (sr w argv environ PATH)).
Proof.
  unfold sr, run.
  pose proof (shaped_main (List.length argv) argv environ (boot PATH)
                (pristine_boot PATH)) as S.
  destruct (main w (List.length argv) argv environ (boot PATH)); simpl in *.
  - now apply shape_running.
  - exact S.
Qed.

End Shapes.

(** ** The ordered protocol and its failure branches *)

Lemma transition_run_stops iab lk calls :
  transition_run iab lk calls true ->
  exists before call,
    calls = before ++ [call] /\ call_failed call = true /\
    raised_after calls =
      match call with
      | ECapIabSetProc _ _ | ESetpcap false _ => true
      | _ => false
      end.
Proof.
  inversion 1; subst;
    match goal with H : ?r <> 0 |- _ => pose proof H as E; apply Z.eqb_neq in E end.
  - exists [], (ESetpcap true r). simpl. rewrite E.
    repeat split. unfold raised_after. simpl. destruct r; congruence.
  - exists [ESetpcap true 0], (ECapIabSetProc iab r). simpl. rewrite E.
    repeat split.
  - exists [ESetpcap true 0; ECapIabSetProc iab 0], (ESetpcap false r).
    simpl. rewrite E. repeat split.
    unfold raised_after. simpl. destruct r; congruence.
  - exists [ESetpcap true 0; ECapIabSetProc iab 0; ESetpcap false 0],
      (ESecurebits r).
    simpl. rewrite E. repeat split.
Qed.

(** C2, as the code has it.  When a step of the capability transition
    fails, the process exits at once with status 1, the failing call
    followed by its diagnostic and nothing else.  CAP_SETPCAP is out of
    the effective set at that exit when the failing step is the
    acquisition or the lockdown; it is still in the effective set when
    the failing step is the installation of the triple or the release,
    because [error] ends the process without lowering it. *)
Theorem failed_transition_setpcap (w : World) (argv environ : list string)
    (PATH : ptr) :
  let o := fst (sr w argv environ PATH) in
  let s := snd (sr w argv environ PATH) in
  transition_failed (st_trace s) = true ->
  o = Exit 1 /\
  exists before call msg,
    st_trace s = before ++ [call; EStderr msg] /\
    call_failed call = true /\
    st_setpcap s = match call with
                   | ECapIabSetProc _ _ | ESetpcap false _ => true
                   | _ => false
                   end.
Proof.
  intros o s.
  pose proof (sr_shape w argv environ PATH) as S. fold o s in S.
  clearbody o s.
  inversion S
    as [o' s' T _ _ _
       |user groups command iab options pre calls msg s' G T P R A
       |user groups command iab options pre calls post o' s' G T P Q R _ _ _];
    subst; intros F.
  - rewrite <- transition_failed_cap_calls, T in F. discriminate.
  - split; [reflexivity|].
    destruct (transition_run_stops _ _ _ R) as (before & call & E & C & B).
    exists (pre ++ before), call, msg. rewrite T, A, B, E.
    split; [now rewrite <- !app_assoc|]. now split.
  - rewrite <- transition_failed_cap_calls in F.
    rewrite T, !cap_calls_app, P, Q in F.
    rewrite (transition_run_cap_calls _ _ _ _ R) in F.
    simpl in F. rewrite app_nil_r in F.
    rewrite (transition_run_failed _ _ _ _ R) in F. discriminate.
Qed.

Lemma failed_transition_setpcap_witness :
  let w := Scene.with_cap_iab_set_proc (fun _ => -1) Scene.world in
  let r := sr w ["sr"; "shutdown"]%string Scene.environ Scene.PATH in
  transition_failed (st_trace (snd r)) = true /\
  fst r = Exit 1 /\
  exists before call msg,
    st_trace (snd r) = before ++ [call; EStderr msg] /\
    call_failed call = true /\
    st_setpcap (snd r) = match call with
                         | ECapIabSetProc _ _ | ESetpcap false _ => true
                         | _ => false
                         end.
Proof.
  intros w r. split; [reflexivity|].
  apply (failed_transition_setpcap w ["sr"; "shutdown"]%string
           Scene.environ Scene.PATH).
  reflexivity.
Defined.

(** C2, as the spec states it, fails: the policy grants, the acquisition
    succeeds, [cap_iab_set_proc] fails, and the process exits with
    CAP_SETPCAP still in its effective set. *)
Lemma install_failure_leaves_setpcap_raised :
  let w := Scene.with_cap_iab_set_proc (fun _ => -1) Scene.world in
  let r := sr w ["sr"; "shutdown"]%string Scene.environ Scene.PATH in
  cap_calls (st_trace (snd r)) =
    [ESetpcap true 0;
     ECapIabSetProc (mk_iab [] [Scene.CAP_SYS_BOOT] []) (-1)] /\
  transition_failed (st_trace (snd r)) = true /\
  fst r = Exit 1 /\
  st_setpcap (snd r) = true.
Proof. repeat split. Qed.

(** ** Authentication comes first *)

(** C7.  When authentication of the resolved user fails, no capability
    primitive is ever called: CAP_SETPCAP is never raised, no triple is
    installed, the lockdown is never activated, and nothing is launched.
    The run either stopped even earlier on help or version (status 0), or
    exits with status 1 right after the failed authentication. *)
Theorem no_capability_call_without_authentication (w : World)
    (argv environ : list string) (PATH : ptr) (user : string) :
  get_username w (geteuid w) = Some user ->
  pam_authenticate_user w user = 0 ->
  let o := fst (sr w argv environ PATH) in
  let s := snd (sr w argv environ PATH) in
  cap_calls (st_trace s) = [] /\
  st_setpcap s = false /\ st_iab s = None /\ st_securebits s = false /\
  launches (st_trace s) = [] /\
  (o = Exit 0 /\ diagnostics (st_trace s) = [] \/
   o = Exit 1 /\
   st_trace s = [EAuth user 0; EStderr "Authentication failed"]).
Proof.
  intros U A. unfold sr, run, main.
  destruct (parse_arguments w (List.length argv) argv (mk_arguments None 0 0 0))
    as [[[parsed argc'] argv'] arguments].
  destruct ((parsed =? 0) || negb (help arguments =? 0)).
  { simpl. repeat split. left. now split. }
  destruct (negb (version arguments =? 0)).
  { simpl. repeat split. left. now split. }
  unfold main_run, bind, extern, pam_authenticate_user_call, bind, extern,
    emit, ret, error1.
  rewrite U, A. simpl. repeat split. right. now split.
Qed.

Lemma no_capability_call_without_authentication_witness :
  let w := Scene.with_pam (fun _ => 0) Scene.world in
  let r := sr w ["sr"; "shutdown"]%string Scene.environ Scene.PATH in
  (get_username w (geteuid w) = Some "alice"%string /\
   pam_authenticate_user w "alice" = 0) /\
  cap_calls (st_trace (snd r)) = [] /\
  st_setpcap (snd r) = false /\ st_iab (snd r) = None /\
  st_securebits (snd r) = false /\
  launches (st_trace (snd r)) = [] /\
  (fst r = Exit 0 /\ diagnostics (st_trace (snd r)) = [] \/
   fst r = Exit 1 /\
   st_trace (snd r) = [EAuth "alice" 0; EStderr "Authentication failed"]).
Proof.
  intros w r. split; [split; reflexivity|].
  apply (no_capability_call_without_authentication w
           ["sr"; "shutdown"]%string Scene.environ Scene.PATH "alice"%string);
    reflexivity.
Defined.

(** ** The command name *)

Lemma slot_nil : slot [] 0 = None.
Proof. reflexivity. Qed.

Lemma slot_first a rest : slot (a :: rest) 0 = Some a.
Proof. reflexivity. Qed.

Lemma strnlen_long a :
  (PATH_MAX <= String.length a)%nat ->
  Nat.ltb (strnlen a PATH_MAX) PATH_MAX = false.
Proof.
  intros H. unfold strnlen. rewrite Nat.min_r by exact H.
  apply Nat.ltb_irrefl.
Qed.

(** C10.  Once the caller is identified, authenticated and has groups,
    and neither help, version nor info was asked for, [main] reads
    [argv[0]] of the remaining arguments without looking at [argc].  With
    no command on the line the remaining list is empty, index 0 is its
    length, the slot read is the terminating null, and [strnlen] is handed
    that null pointer: the run ends in a fault, with no diagnostic.  With
    a command, that first word is what is measured: a word of PATH_MAX
    characters or more ends the run with "Command too long". *)
Theorem missing_command_reads_terminator (w : World)
    (argv environ : list string) (PATH : ptr)
    (argc' : nat) (rest : list string) (arguments : arguments_t)
    (user : string) :
  parse_arguments w (List.length argv) argv (mk_arguments None 0 0 0)
    = (1, argc', rest, arguments) ->
  help arguments = 0 -> version arguments = 0 -> info arguments = 0 ->
  get_username w (geteuid w) = Some user ->
  pam_authenticate_user w user <> 0 ->
  fst (get_group_names w user (get_group_id w (geteuid w))) = 0 ->
  let o := fst (sr w argv environ PATH) in
  let tr := st_trace (snd (sr w argv environ PATH)) in
  (rest = [] ->
   (List.length rest <= 0)%nat /\ slot rest 0 = None /\
   o = Fault "strnlen" /\ diagnostics tr = []) /\
  (forall a rest',
     rest = a :: rest' -> (PATH_MAX <= String.length a)%nat ->
     slot rest 0 = Some a /\
     o = Exit 1 /\ diagnostics tr = [EStderr "Command too long"]).
Proof.
  intros P Hh Hv Hi U A G. unfold sr, run, main. rewrite P, Hh, Hv. simpl.
  unfold main_run, bind, extern, pam_authenticate_user_call, bind, extern,
    emit, ret, error1, halt.
  rewrite U. apply Z.eqb_neq in A. rewrite A, Hi.
  destruct (get_group_names w user (get_group_id w (geteuid w)))
    as [failed groups].
  simpl in G. subst failed. cbn [Z.eqb negb].
  split.
  - intros ->. rewrite slot_nil. repeat split. simpl. lia.
  - intros a rest' -> L. rewrite slot_first, (strnlen_long a L).
    repeat split.
Qed.

Lemma missing_command_reads_terminator_witness :
  let w := Scene.world in
  let r := sr w ["sr"]%string Scene.environ Scene.PATH in
  (parse_arguments w 1 ["sr"]%string (mk_arguments None 0 0 0)
     = (1, 0%nat, [], mk_arguments None 0 0 0) /\
   get_username w (geteuid w) = Some "alice"%string /\
   pam_authenticate_user w "alice" <> 0 /\
   fst (get_group_names w "alice" (get_group_id w (geteuid w))) = 0) /\
  slot [] 0 = None /\
  fst r = Fault "strnlen" /\ diagnostics (st_trace (snd r)) = [].
Proof.
  intros w r.
  assert (P : parse_arguments w 1 ["sr"]%string (mk_arguments None 0 0 0)
              = (1, 0%nat, [], mk_arguments None 0 0 0)) by reflexivity.
  assert (A : pam_authenticate_user w "alice" <> 0) by discriminate.
  split; [repeat split; assumption|].
  destruct (missing_command_reads_terminator w ["sr"]%string
              Scene.environ Scene.PATH 0 [] (mk_arguments None 0 0 0)
              "alice"%string P eq_refl eq_refl eq_refl eq_refl A eq_refl)
    as [E _].
  destruct (E eq_refl) as (_ & S & O & D).
  repeat split; assumption.
Defined.

(** ** The argument vector of the shell *)


Lemma blk_stores_store b i v :
  blk_stores (blk_store b i v) = blk_stores b ++ [i].
Proof. reflexivity. Qed.

Lemma memcpy_stores n : forall src b dst,
  (n <= List.length src)%nat ->
  blk_stores (memcpy b dst src n) = blk_stores b ++ seq dst n.
Proof.
  induction n as [|n IH]; intros [|v src] b dst L; simpl in *;
    try (now rewrite app_nil_r); try lia.
  rewrite IH by lia. rewrite blk_stores_store, <- app_assoc. reflexivity.
Qed.

Lemma memcpy_load n : forall src b dst k,
  (n <= List.length src)%nat ->
  blk_load (blk_mem (memcpy b dst src n)) k =
    if Nat.leb dst k && Nat.ltb k (dst + n)
    then Some (nth (k - dst) src None)
    else blk_load (blk_mem b) k.
Proof.
  induction n as [|n IH]; intros [|v src] b dst k L; simpl in L; try lia.
  - simpl. destruct (Nat.leb_spec dst k); destruct (Nat.ltb_spec k (dst + 0));
      cbn [andb]; try lia; reflexivity.
  - simpl. destruct (Nat.leb_spec dst k); destruct (Nat.ltb_spec k (dst + 0));
      cbn [andb]; try lia; reflexivity.
  - cbn [memcpy]. rewrite IH by lia. cbn [blk_store blk_mem blk_load].
    destruct (Nat.leb_spec (S dst) k) as [H1|H1];
      destruct (Nat.ltb_spec k (S dst + n)) as [H2|H2];
      destruct (Nat.leb_spec dst k) as [H3|H3];
      destruct (Nat.ltb_spec k (dst + S n)) as [H4|H4];
      destruct (Nat.eqb_spec k dst) as [H5|H5]; cbn [andb]; try lia;
      try reflexivity.
    + replace (k - dst)%nat with (S (k - S dst)) by lia. reflexivity.
    + subst k. now rewrite Nat.sub_diag.
Qed.

Lemma vector_nth (l : list string) k :
  (k < List.length l)%nat -> nth k (vector l) None = Some (nth k l ""%string).
Proof.
  intros H. unfold vector.
  rewrite app_nth1 by (rewrite length_map; lia).
  rewrite (nth_indep _ None (Some ""%string)) by (rewrite length_map; lia).
  apply (map_nth Some).
Qed.

Lemma vector_last (l : list string) : nth (List.length l) (vector l) None = None.
Proof.
  unfold vector. rewrite app_nth2 by (rewrite length_map; lia).
  now rewrite length_map, Nat.sub_diag.
Qed.

(** What each slot of the shell's vector holds after sr.c:96-98. *)
Lemma sr_nargv_load command (argv : list string) k :
  blk_load (blk_mem (sr_nargv command (List.length argv) (vector argv))) k =
    if Nat.ltb k (List.length argv + 2)
    then Some (Some (nth k ("sh"%string :: command :: argv) ""%string))
    else None.
Proof.
  unfold sr_nargv. rewrite memcpy_load.
  2:{ unfold vector. rewrite length_app, length_map. simpl. lia. }
  destruct (Nat.leb_spec 2 k) as [H1|H1];
    destruct (Nat.ltb_spec k (2 + List.length argv)) as [H2|H2];
    destruct (Nat.ltb_spec k (List.length argv + 2)) as [H3|H3];
    cbn [andb]; try lia.
  - rewrite vector_nth by lia.
    destruct k as [|[|k]]; try lia. simpl. now rewrite Nat.sub_0_r.
  - destruct k as [|[|k]]; try lia; reflexivity.
  - destruct k as [|[|k]]; try lia; reflexivity.
Qed.

Lemma skipn_nth (l : list string) : forall i,
  (i < List.length l)%nat -> skipn i l = nth i l ""%string :: skipn (S i) l.
Proof.
  induction l as [|a l IH]; intros [|i] H; simpl in *; try lia.
  - reflexivity.
  - apply IH. lia.
Qed.

Lemma read_vector_unterminated b (l : list string) :
  (forall k, (k < List.length l)%nat ->
             blk_load (blk_mem b) k = Some (Some (nth k l ""%string))) ->
  blk_load (blk_mem b) (List.length l) = None ->
  forall fuel i,
    (i <= List.length l)%nat -> (List.length l - i < fuel)%nat ->
    read_vector fuel b i = (skipn i l, false).
Proof.
  intros In Out. induction fuel as [|fuel IH]; intros i Hi Hf; [lia|].
  simpl. destruct (Nat.eq_dec i (List.length l)) as [->|Hne].
  - rewrite Out. now rewrite skipn_all.
  - rewrite In by lia. rewrite IH by lia. now rewrite <- skipn_nth by lia.
Qed.


Lemma sr_nargv_mem_length command (argv : list string) :
  List.length (blk_mem (sr_nargv command (List.length argv) (vector argv)))
  = (List.length argv + 2)%nat.
Proof.
  pose proof (memcpy_stores (List.length argv) (vector argv)
                (blk_store (blk_store (reallocarray (List.length argv + 1))
                              0 (Some "sh"%string)) 1 (Some command)) 2) as S.
  unfold blk_stores in S at 1.
  apply (f_equal (@List.length nat)) in S.
  rewrite length_rev, length_map in S. unfold sr_nargv. rewrite S.
  - rewrite length_app, length_seq. simpl. lia.
  - unfold vector. rewrite length_app, length_map. simpl. lia.
Qed.

(** What [execve] reads out of the shell's vector. *)
Lemma sr_nargv_argv command (argv : list string) :
  blk_argv (sr_nargv command (List.length argv) (vector argv))
  = ("sh"%string :: command :: argv, false).
Proof.
  unfold blk_argv.
  rewrite (read_vector_unterminated _ ("sh"%string :: command :: argv)).
  - reflexivity.
  - intros k Hk. rewrite sr_nargv_load.
    simpl in Hk. destruct (Nat.ltb_spec k (List.length argv + 2)); [|lia].
    reflexivity.
  - rewrite sr_nargv_load. simpl.
    destruct (Nat.ltb_spec (S (S (List.length argv)))
                (List.length argv + 2)); [lia|reflexivity].
  - lia.
  - rewrite sr_nargv_mem_length. simpl. lia.
Qed.

(** The vector handed to the shell has no terminator. *)
Lemma sr_nargv_vector command (argv : list string) :
  blk_vector (sr_nargv command (List.length argv) (vector argv))
  = map Some ("sh"%string :: command :: argv).
Proof. unfold blk_vector. now rewrite sr_nargv_argv. Qed.


(** ** Diagnostics and exit status *)

Section Reports.

Variable w : World.

Lemma reports_ret {A : Type} (a : A) (ok : A -> Prop) :
  ok a -> reports (ret a) ok.
Proof. intros H s. now split. Qed.

Lemma reports_error1 {A : Type} (msg : string) (ok : A -> Prop) :
  reports (@error1 A msg) ok.
Proof.
  intros s. left. split; [reflexivity|]. now exists (st_trace s), msg.
Qed.

Lemma reports_fault {A : Type} (callee : string) (ok : A -> Prop) :
  reports (@halt A (Fault callee)) ok.
Proof. intros s. right. now split. Qed.

Lemma reports_bind {A B : Type} (m : M A) (f : A -> M B)
    (okA : A -> Prop) (ok : B -> Prop) :
  reports m okA -> (forall a, okA a -> reports (f a) ok) ->
  reports (bind m f) ok.
Proof.
  intros Hm Hf s. unfold bind. specialize (Hm s).
  destruct (m s) as [a s1|o s1]; [|exact Hm].
  destruct Hm as [Ha D]. specialize (Hf a Ha s1).
  destruct (f a s1) as [b s2|o s2].
  - destruct Hf as [Hb D']. split; [exact Hb|congruence].
  - destruct Hf as [(E & pre & msg & T & D')|(N & D')].
    + left. split; [exact E|]. exists pre, msg. split; [exact T|congruence].
    + right. split; [exact N|congruence].
Qed.

Lemma reports_any {A : Type} (m : M A) (ok : A -> Prop) :
  reports m ok -> reports m any.
Proof.
  intros H s. specialize (H s). destruct (m s); [|exact H].
  split; [exact I|apply H].
Qed.

(** A step that always returns and prints no diagnostic. *)
Lemma reports_step {A : Type} (m : M A) :
  (forall s, exists a s',
      m s = Cont a s' /\
      diagnostics (st_trace s') = diagnostics (st_trace s)) ->
  reports m any.
Proof.
  intros H s. destruct (H s) as (a & s' & -> & D). now split.
Qed.

Lemma diagnostics_log e s :
  is_diagnostic e = false ->
  diagnostics (st_trace (log e s)) = diagnostics (st_trace s).
Proof.
  intros H. simpl. rewrite diagnostics_app. unfold diagnostics at 2. simpl.
  rewrite H. apply app_nil_r.
Qed.

Lemma reports_extern {A : Type} (c : site) (a : A) :
  reports (extern w c a) any.
Proof. apply reports_step. intros s. now eexists _, _. Qed.

Lemma reports_emit e : is_diagnostic e = false -> reports (emit e) any.
Proof.
  intros H. apply reports_step. intros s. eexists _, _.
  split; [reflexivity|]. now apply diagnostics_log.
Qed.

Lemma reports_errno : reports errno any.
Proof. apply reports_step. intros s. now eexists _, _. Qed.

Lemma reports_getenv_PATH : reports getenv_PATH any.
Proof. apply reports_step. intros s. now eexists _, _. Qed.

Lemma reports_access p : reports (access w p) any.
Proof.
  apply reports_step. intros s. unfold access.
  destruct p as [f|]; [destruct (access_X_OK w f)|]; now eexists _, _.
Qed.

Lemma reports_realpath_null p : reports (realpath_null w p) any.
Proof.
  apply reports_step. intros s. unfold realpath_null.
  destruct (realpath w p); now eexists _, _.
Qed.

Lemma reports_secure_path_call p secure :
  reports (secure_path_call w p secure) any.
Proof. apply reports_step. intros s. now eexists _, _. Qed.

Lemma reports_setpcap_effective_call enable :
  reports (setpcap_effective_call w enable) any.
Proof.
  apply reports_step. intros s. unfold setpcap_effective_call.
  eexists _, _. split; [reflexivity|]. rewrite diagnostics_log by reflexivity.
  now destruct (setpcap_effective w enable =? 0).
Qed.

Lemma reports_cap_iab_set_proc_call iab :
  reports (cap_iab_set_proc_call w iab) any.
Proof.
  apply reports_step. intros s. unfold cap_iab_set_proc_call.
  eexists _, _. split; [reflexivity|]. rewrite diagnostics_log by reflexivity.
  now destruct (cap_iab_set_proc w iab =? 0).
Qed.

Lemma reports_activates_securebits_call :
  reports (activates_securebits_call w) any.
Proof.
  apply reports_step. intros s. unfold activates_securebits_call.
  eexists _, _. split; [reflexivity|]. rewrite diagnostics_log by reflexivity.
  now destruct (activates_securebits w =? 0).
Qed.

Lemma reports_execve_call file argv envp :
  reports (execve_call w file argv envp) any.
Proof.
  intros s. unfold execve_call. destruct (execve w file argv envp).
  - right. split; [discriminate|]. now apply diagnostics_log.
  - split; [exact I|]. now rewrite diagnostics_log.
Qed.

(** Takes a computation apart along its binds and branches. *)
Ltac reports_auto :=
  repeat first
    [ apply reports_error1
    | apply reports_fault
    | apply reports_ret; first [exact I | reflexivity]
    | apply reports_extern
    | apply reports_errno
    | apply reports_getenv_PATH
    | apply reports_access
    | apply reports_realpath_null
    | apply reports_secure_path_call
    | apply reports_setpcap_effective_call
    | apply reports_cap_iab_set_proc_call
    | apply reports_activates_securebits_call
    | apply reports_execve_call
    | apply reports_emit; reflexivity
    | assumption
    | match goal with
      | |- reports (bind _ _) _ =>
          eapply reports_bind with (okA := any); [|intros ? _]
      | |- reports (if ?b then _ else _) _ => destruct b
      | |- reports (match ?x with _ => _ end) _ => destruct x
      end ].

Lemma reports_find_in_tokens tokens file :
  reports (find_in_tokens w tokens file) any.
Proof.
  induction tokens as [|token tokens IH]; cbn [find_in_tokens]; reports_auto.
Qed.

Lemma reports_find_absolute_path_from_env file :
  reports (find_absolute_path_from_env w file) any.
Proof.
  pose proof reports_find_in_tokens as F.
  unfold find_absolute_path_from_env. reports_auto. apply F.
Qed.

Lemma reports_main_resolve argv0 : reports (main_resolve w argv0) any.
Proof.
  pose proof reports_find_absolute_path_from_env as F.
  unfold main_resolve. reports_auto. apply F.
Qed.

Lemma reports_sr_execve command p_argc p_argv p_envp :
  reports (sr_execve w command p_argc p_argv p_envp) any.
Proof. unfold sr_execve. reports_auto. Qed.

Lemma reports_main_transition iab options :
  reports (main_transition w iab options) any.
Proof. unfold main_transition. reports_auto. Qed.

Lemma reports_main_launch options argc argv argv0 environ :
  reports (main_launch w options argc argv argv0 environ) any.
Proof.
  pose proof reports_main_resolve as R. pose proof reports_sr_execve as X.
  unfold main_launch. reports_auto; [apply R|apply X].
Qed.

Lemma reports_main_exec user groups argc argv argv0 environ :
  reports (main_exec w user groups argc argv argv0 environ) any.
Proof.
  pose proof reports_main_transition as T.
  pose proof reports_main_launch as L.
  unfold main_exec. reports_auto; [apply T|apply L].
Qed.

Lemma reports_main_run arguments argc argv environ :
  reports (main_run w arguments argc argv environ) (fun r => r = 0).
Proof.
  pose proof reports_main_exec as X.
  unfold main_run, pam_authenticate_user_call. reports_auto. apply X.
Qed.

Lemma reports_main argc argv environ :
  reports (main w argc argv environ) (fun r => r = 0).
Proof.
  pose proof reports_main_run as R.
  unfold main, printf.
  destruct (parse_arguments w argc argv (mk_arguments None 0 0 0))
    as [[[parsed argc'] argv'] arguments].
  reports_auto. apply R.
Qed.

(** Exit status 1 and a diagnostic go together: a run either exits with
    status 1 after printing exactly one diagnostic, as the last thing it
    does, or it ends otherwise and has printed none.  A run that returns
    from [main] exits with status 0. *)
Lemma sr_reports argv environ PATH :
  let o := fst (sr w argv environ PATH) in
  let tr := st_trace (snd (sr w argv environ PATH)) in
  (o = Exit 1 /\
   exists pre msg, tr = pre ++ [EStderr msg] /\ diagnostics pre = []) \/
  (o <> Exit 1 /\ diagnostics tr = []).
Proof.
  unfold sr, run.
  pose proof (reports_main (List.length argv) argv environ (boot PATH)) as R.
  destruct (main w (List.length argv) argv environ (boot PATH))
    as [r s'|o s']; simpl in *.
  - destruct R as [-> D]. right. split; [discriminate|exact D].
  - destruct R as [(E & pre & msg & T & D)|(N & D)].
    + left. split; [exact E|]. now exists pre, msg.
    + right. split; [apply N|exact D].
Qed.

End Reports.

(** ** Command resolution *)

Section Resolution.

Variable w : World.

(** A canonical path that is executable ends resolution with "Command
    not found" (sr.c:183-190, the [else] branch). *)
Lemma main_resolve_rejects_canonical argv0 c s :
  realpath w argv0 = inl c ->
  access_X_OK w c = Ok ->
  st_errno (clobber w SiteRealpath s) <> ENAMETOOLONG ->
  main_resolve w argv0 s
  = Halt (Exit 1)
      (log (EStderr (argv0 ++ " : Command not found")%string)
         (clobber w SiteRealpath s)).
Proof.
  intros R A E. unfold main_resolve, bind, realpath_null, errno, access.
  rewrite R. apply Z.eqb_neq in E. rewrite E, A. reflexivity.
Qed.

Lemma find_in_tokens_found tokens file : forall s c s',
  find_in_tokens w tokens file s = Cont (Some c) s' ->
  exists dir, In dir tokens /\ c = (dir ++ "/" ++ file)%string /\
              access_X_OK w c = Ok.
Proof.
  induction tokens as [|token tokens IH]; intros s c s' H;
    cbn [find_in_tokens] in H.
  - discriminate.
  - destruct (alloc_ok w AllocMalloc); [|discriminate].
    unfold bind, access in H.
    destruct (access_X_OK w (token ++ "/" ++ file)%string) eqn:A;
      simpl in H.
    + inversion H; subst. exists token.
      split; [now left|]. split; [reflexivity|exact A].
    + destruct (IH _ _ _ H) as (dir & I & E & X).
      exists dir. repeat split; [now right|exact E|exact X].
Qed.

(** Whatever resolution accepts comes from the PATH search. *)
Lemma main_resolve_accepts_from_PATH argv0 s c s' :
  main_resolve w argv0 s = Cont c s' ->
  exists dir, c = (dir ++ "/" ++ argv0)%string /\ access_X_OK w c = Ok.
Proof.
  unfold main_resolve, bind, errno, error1. intros H.
  destruct (realpath_null w argv0 s) as [command s1|]; [|discriminate].
  destruct (st_errno s1 =? ENAMETOOLONG); [discriminate|].
  destruct (access w command s1) as [r s2|]; [|discriminate].
  destruct (negb (r =? 0)); [|discriminate].
  unfold find_absolute_path_from_env, bind, getenv_PATH, halt, ret in H.
  destruct (st_PATH s2) as [p|]; [|discriminate].
  destruct (alloc_ok w AllocStrdup); [|discriminate].
  destruct (find_in_tokens w (strtok_all p) argv0 s2) as [[c'|] s3|] eqn:F;
    try discriminate.
  inversion H; subst.
  destruct (find_in_tokens_found _ _ _ _ _ F) as (dir & _ & E & X).
  now exists dir.
Qed.

(** The test of sr.c:180 reads [errno] whether or not [realpath]
    failed: after a [realpath] that succeeds without touching [errno], an
    ENAMETOOLONG left there by an earlier call ends the run. *)
Lemma main_resolve_stale_errno argv0 c s :
  st_errno s = ENAMETOOLONG ->
  errno_left w SiteRealpath = None ->
  realpath w argv0 = inl c ->
  main_resolve w argv0 s
  = Halt (Exit 1) (log (EStderr "Path too long") (clobber w SiteRealpath s)).
Proof.
  intros E L R. unfold main_resolve, bind, realpath_null, errno.
  rewrite R. cbn [st_errno clobber]. rewrite L, E. reflexivity.
Qed.

(** The PATH search takes the first directory, in the order of PATH,
    whose candidate is executable. *)
Lemma find_in_tokens_first before dir after file : forall s,
  alloc_ok w AllocMalloc = true ->
  (forall d, In d before ->
             access_X_OK w (d ++ "/" ++ file)%string <> Ok) ->
  access_X_OK w (dir ++ "/" ++ file)%string = Ok ->
  exists s',
    find_in_tokens w (before ++ dir :: after) file s
    = Cont (Some (dir ++ "/" ++ file)%string) s'.
Proof.
  induction before as [|d before IH]; intros s A N X.
  - cbn [app find_in_tokens]. rewrite A. unfold bind, access.
    rewrite X. now eexists.
  - cbn [app find_in_tokens]. rewrite A. unfold bind, access.
    destruct (access_X_OK w (d ++ "/" ++ file)%string) as [|e] eqn:E.
    + exfalso. apply (N d); [now left|exact E].
    + cbn [Z.eqb]. apply IH; [exact A| |exact X].
      intros d' I. apply N. now right.
Qed.

(** A [realpath] that fails with ENAMETOOLONG is reported as such. *)
Lemma main_resolve_too_long argv0 s :
  realpath w argv0 = inr ENAMETOOLONG ->
  main_resolve w argv0 s
  = Halt (Exit 1) (log (EStderr "Path too long") (set_errno ENAMETOOLONG s)).
Proof.
  intros R. unfold main_resolve, bind, realpath_null, errno.
  rewrite R. reflexivity.
Qed.

(** ** Launch *)

(** The test of sr.c:91 holds whenever [execve] returns. *)
Lemma sr_execve_test (e : Z) : (-1 =? -1) || (e =? ENOEXEC) = true.
Proof. reflexivity. Qed.

(** Whatever made the first [execve] fail, the shell is tried next,
    once, with the target path as the first argument after "sh" and no
    terminator behind the last word. *)
Lemma sr_execve_falls_back command (argv : list string) p_envp e s :
  execve w command (vector argv) p_envp = Err e ->
  alloc_ok w AllocReallocarray = true ->
  exists ret,
    st_trace (state_of (sr_execve w command (List.length argv) (vector argv)
                          p_envp s))
    = st_trace s ++ [EExecve command (vector argv) p_envp (Err e);
                     EExecve "/bin/sh"
                       (map Some ("sh"%string :: command :: argv)) p_envp
                       ret].
Proof.
  intros X A. unfold sr_execve, bind, execve_call, errno, ret.
  rewrite X. cbn [Z.eqb orb]. rewrite A, sr_nargv_vector.
  destruct (execve w "/bin/sh"%string
              (map Some ("sh"%string :: command :: argv)) p_envp)
    as [|e'] eqn:Y.
  - exists Ok. simpl. now rewrite <- app_assoc.
  - exists (Err e'). simpl. now rewrite <- app_assoc.
Qed.

(** When no image is started, [sr_execve] just returns: no diagnostic,
    no exit. *)
Lemma sr_execve_returns command p_argc p_argv p_envp s :
  (forall file argv, execve w file argv p_envp <> Ok) ->
  exists s',
    sr_execve w command p_argc p_argv p_envp s = Cont tt s' /\
    diagnostics (st_trace s') = diagnostics (st_trace s).
Proof.
  intros X. unfold sr_execve, bind, execve_call, errno, ret.
  destruct (execve w command p_argv p_envp) as [|e] eqn:E1;
    [now apply X in E1|].
  cbn [Z.eqb orb].
  destruct (alloc_ok w AllocReallocarray).
  - match goal with
    | |- context [execve w "/bin/sh"%string ?v ?e] =>
        destruct (execve w "/bin/sh"%string v e) as [|e'] eqn:E2
    end; [now apply X in E2|].
    eexists. split; [reflexivity|]. simpl.
    now rewrite !diagnostics_app, !app_nil_r.
  - eexists. split; [reflexivity|]. simpl.
    now rewrite diagnostics_app, app_nil_r.
Qed.

(** ** The role hint *)

(** Outside info mode the role given with [-r] reaches nothing. *)
Lemma main_run_ignores_role (arguments : arguments_t) (hint : ptr)
    argc argv environ :
  info arguments = 0 ->
  main_run w arguments argc argv environ
  = main_run w (mk_arguments hint (info arguments) (version arguments)
                  (help arguments)) argc argv environ.
Proof.
  intros I. unfold main_run. simpl. rewrite I. reflexivity.
Qed.

End Resolution.

(** PATH /usr/bin:/bin with ls only in /bin resolves to /bin/ls. *)
Example path_search_in_listed_order :
  let w :=
    Scene.with_access
      (fun f => if String.eqb f "/bin/ls" then Ok else Err ENOENT)
      Scene.world in
  find_absolute_path_from_env w "ls" (boot (Some "/usr/bin:/bin"%string))
  = Cont (Some "/bin/ls"%string)
      (set_errno ENOENT (boot (Some "/usr/bin:/bin"%string))).
Proof. reflexivity. Qed.

(** C1.  The spec's preference for the canonical path is not what
    sr.c:183-190 does.  Asked for /usr/sbin/shutdown, which canonicalises
    to itself and is executable, the program, capabilities already
    installed, exits with status 1 and "Command not found"; asked for the
    bare name, which does not canonicalise, it finds the same file through
    PATH and launches it. *)
Theorem canonical_executable_path_is_rejected :
  let w := Scene.world in
  let direct :=
    sr w ["sr"; "/usr/sbin/shutdown"]%string Scene.environ Scene.PATH in
  let bare := sr w ["sr"; "shutdown"]%string Scene.environ Scene.PATH in
  realpath w "/usr/sbin/shutdown" = inl "/usr/sbin/shutdown"%string /\
  access_X_OK w "/usr/sbin/shutdown" = Ok /\
  fst direct = Exit 1 /\
  diagnostics (st_trace (snd direct))
    = [EStderr "/usr/sbin/shutdown : Command not found"] /\
  launches (st_trace (snd direct)) = [] /\
  fst bare = Replaced "/usr/sbin/shutdown" [Some "shutdown"%string; None]
               ["TERM=xterm"; "LANG=C"]%string.
Proof. repeat split. Qed.

(** C3.  A launch that fails does not end in status 1.  Here the policy
    grants, the command resolves, and both [execve] calls (the target,
    then the shell) fail with EACCES: [sr_execve] returns, [main] falls
    through to [return 0], and nothing is printed.  The same happens when
    the target fails and the vector for the shell cannot be allocated, a
    run that never stores outside a block. *)
Theorem exec_failure_returns_zero :
  let w := Scene.with_execve (fun _ _ _ => Err EACCES) Scene.world in
  let r := sr w ["sr"; "shutdown"]%string Scene.environ Scene.PATH in
  let w' :=
    Scene.with_alloc_ok
      (fun a => match a with AllocReallocarray => false | _ => true end) w in
  let r' := sr w' ["sr"; "shutdown"]%string Scene.environ Scene.PATH in
  launches (st_trace (snd r))
    = [EExecve "/usr/sbin/shutdown" [Some "shutdown"%string; None]
         ["TERM=xterm"; "LANG=C"]%string (Err EACCES);
       EExecve "/bin/sh"
         [Some "sh"; Some "/usr/sbin/shutdown"; Some "shutdown"]%string
         ["TERM=xterm"; "LANG=C"]%string (Err EACCES)] /\
  fst r = Exit 0 /\
  diagnostics (st_trace (snd r)) = [] /\
  launches (st_trace (snd r'))
    = [EExecve "/usr/sbin/shutdown" [Some "shutdown"%string; None]
         ["TERM=xterm"; "LANG=C"]%string (Err EACCES)] /\
  fst r' = Exit 0 /\
  diagnostics (st_trace (snd r')) = [].
Proof. repeat split. Qed.

(** C4.  The shell fallback is not reserved to ENOEXEC.  The test at
    sr.c:91 is [i == -1 || errno == ENOEXEC], and [i] is [-1] whenever
    [execve] returns.  Here the target fails with EACCES and /bin/sh is
    tried all the same, once, with the target path as the argument after
    "sh", in the unterminated vector of sr.c:94-98, whatever the kernel
    then answers to that attempt. *)
Theorem fallback_runs_on_eacces (answer : sysret) :
  let w :=
    Scene.with_execve
      (fun file _ _ =>
         if String.eqb file "/bin/sh" then answer else Err EACCES)
      Scene.world in
  let r := sr w ["sr"; "shutdown"]%string Scene.environ Scene.PATH in
  EACCES <> ENOEXEC /\
  launches (st_trace (snd r))
    = [EExecve "/usr/sbin/shutdown" [Some "shutdown"%string; None]
         ["TERM=xterm"; "LANG=C"]%string (Err EACCES);
       EExecve "/bin/sh"
         [Some "sh"; Some "/usr/sbin/shutdown"; Some "shutdown"]%string
         ["TERM=xterm"; "LANG=C"]%string answer].
Proof. split; [discriminate|]. destruct answer; reflexivity. Qed.

(** C5.  The role hint does not reach policy resolution on the execution
    path: [get_settings_from_config] is called without it (sr.c:151).
    With the hint "viewer", a role that grants alice no capability, the
    run is the same as without any hint and installs the triple of
    ops-role, CAP_SYS_BOOT ambient, which is wider than what viewer alone
    grants. *)
Theorem role_hint_does_not_restrict :
  let w := Scene.world in
  let hinted :=
    sr w ["sr"; "-r"; "viewer"; "shutdown"]%string Scene.environ Scene.PATH in
  let plain := sr w ["sr"; "shutdown"]%string Scene.environ Scene.PATH in
  fst (parse_arguments w 4 ["sr"; "-r"; "viewer"; "shutdown"]%string
         (mk_arguments None 0 0 0))
    = (1, 1%nat, ["shutdown"%string]) /\
  role (snd (parse_arguments w 4 ["sr"; "-r"; "viewer"; "shutdown"]%string
               (mk_arguments None 0 0 0)))
    = Some "viewer"%string /\
  Policy.resolve Scene.policy "alice" ["alice"; "ops"]%string "shutdown"
    (Some "viewer"%string)
    = Some (mk_iab [] [] [], Scene.ops_options) /\
  st_iab (snd hinted) = Some (mk_iab [] [Scene.CAP_SYS_BOOT] []) /\
  Policy.iab_within (mk_iab [] [Scene.CAP_SYS_BOOT] []) (mk_iab [] [] [])
    = false /\
  hinted = plain.
Proof. repeat split. Qed.

(** * Further properties of sr.c *)

(** ** The option loop *)

Lemma has_option_cons c c' optarg rets :
  has_option c ((c', optarg) :: rets) = Ascii.eqb c' c || has_option c rets.
Proof. reflexivity. Qed.

Lemma parse_options_parsed rets : forall args,
  fst (parse_options rets args) = all_known rets.
Proof.
  induction rets as [|[c optarg] rets IH]; intros args; [reflexivity|].
  unfold all_known, known_option in *. cbn [parse_options forallb fst].
  destruct (Ascii.eqb c "r"); [now rewrite IH|].
  destruct (Ascii.eqb c "i"); [now rewrite IH|].
  destruct (Ascii.eqb c "v"); [now rewrite IH|].
  destruct (Ascii.eqb c "h"); [now rewrite IH|].
  reflexivity.
Qed.

(** X1.  The loop of [parse_arguments] succeeds exactly when every value
    [getopt_long] returned is one of r, i, v, h.  When it does, a flag is 1
    if its option occurred and keeps its initial value otherwise, however
    often and in whatever order the options came, and the role is the
    argument of the last [-r]. *)
Theorem parse_options_flags (rets : list (ascii * ptr)) (args : arguments_t) :
  all_known rets = true ->
  parse_options rets args
  = (true,
     mk_arguments (last_role rets (role args))
       (if has_option "i" rets then 1 else info args)
       (if has_option "v" rets then 1 else version args)
       (if has_option "h" rets then 1 else help args)).
Proof.
  revert args.
  induction rets as [|[c optarg] rets IH]; intros args K.
  - destruct args. reflexivity.
  - unfold all_known in K. cbn [forallb fst] in K.
    apply andb_true_iff in K. destruct K as [Kc K].
    cbn [parse_options]. rewrite !has_option_cons.
    unfold last_role. cbn [fold_left fst snd]. fold (last_role rets).
    destruct (Ascii.eqb_spec c "r") as [->|Nr].
    { rewrite (IH _ K). simpl.
      destruct (has_option "i" rets), (has_option "v" rets),
        (has_option "h" rets); reflexivity. }
    destruct (Ascii.eqb_spec c "i") as [->|Ni].
    { rewrite (IH _ K). simpl.
      destruct (has_option "i" rets), (has_option "v" rets),
        (has_option "h" rets); reflexivity. }
    destruct (Ascii.eqb_spec c "v") as [->|Nv].
    { rewrite (IH _ K). simpl.
      destruct (has_option "i" rets), (has_option "v" rets),
        (has_option "h" rets); reflexivity. }
    destruct (Ascii.eqb_spec c "h") as [->|Nh].
    { rewrite (IH _ K). simpl.
      destruct (has_option "i" rets), (has_option "v" rets),
        (has_option "h" rets); reflexivity. }
    unfold known_option in Kc.
    apply Ascii.eqb_neq in Nr, Ni, Nv, Nh.
    rewrite Nr, Ni, Nv, Nh in Kc. discriminate.
Qed.

Lemma parse_options_flags_witness :
  let rets : list (ascii * ptr) :=
    [("i"%char, None); ("r"%char, Some "a"%string); ("i"%char, None);
     ("r"%char, Some "b"%string)] in
  all_known rets = true /\
  parse_options rets (mk_arguments None 0 0 0)
  = (true, mk_arguments (Some "b"%string) 1 0 0).
Proof.
  intros rets. split; [reflexivity|].
  apply (parse_options_flags rets (mk_arguments None 0 0 0)). reflexivity.
Defined.

(** X2.  [parse_arguments] returns 1 or 0 and nothing else: 1 when every
    option is known, and then [argv] is advanced by [optind] and [argc] is
    again the number of words in it; 0 at the first unknown option, and
    then [argc] and [argv] are as they were, the program name still at
    [argv[0]]. *)
Theorem parse_arguments_shifts (w : World) (argv : list string)
    (args : arguments_t) :
  let rets := fst (getopt_long w argv) in
  let optind := snd (getopt_long w argv) in
  let '(ret, argc', argv', _) :=
    parse_arguments w (List.length argv) argv args in
  (all_known rets = true /\ ret = 1 /\
   argv' = skipn optind argv /\ argc' = List.length argv') \/
  (all_known rets = false /\ ret = 0 /\
   argv' = argv /\ argc' = List.length argv).
Proof.
  unfold parse_arguments. destruct (getopt_long w argv) as [rets optind].
  cbn [fst snd].
  pose proof (parse_options_parsed rets args) as P.
  destruct (parse_options rets args) as [[|] args']; cbn [fst] in P.
  - left. repeat split; [now symmetry|]. now rewrite length_skipn.
  - right. repeat split. now symmetry.
Qed.

Lemma parse_arguments_argc (w : World) argv args argc' rest arguments :
  parse_arguments w (List.length argv) argv args = (1, argc', rest, arguments)
  -> argc' = List.length rest.
Proof.
  intros H. pose proof (parse_arguments_shifts w argv args) as S.
  cbv zeta in S. rewrite H in S.
  destruct S as [(_ & _ & _ & E)|(_ & E & _)]; [exact E|discriminate].
Qed.

(** ** The directories of PATH *)

Lemma string_app_nil_r (a : string) : (a ++ "")%string = a.
Proof. induction a as [|c a IH]; simpl; [reflexivity|now rewrite IH]. Qed.

Lemma string_app_assoc (a b c : string) :
  ((a ++ b) ++ c)%string = (a ++ (b ++ c))%string.
Proof. induction a as [|x a IH]; simpl; [reflexivity|now rewrite IH]. Qed.

Lemma string_app_nonempty (a : string) (c : ascii) :
  (a ++ String c "")%string <> EmptyString.
Proof. destruct a; discriminate. Qed.

Lemma colon_free_app (a b : string) :
  colon_free (a ++ b) = colon_free a && colon_free b.
Proof.
  induction a as [|c a IH]; simpl; [reflexivity|].
  now rewrite IH, andb_assoc.
Qed.

Lemma strtok_from_tokens s : forall cur t,
  colon_free cur = true -> In t (strtok_from s cur) -> directory t.
Proof.
  induction s as [|c s IH]; intros cur t F I; cbn [strtok_from] in I.
  - destruct cur; [contradiction|]. destruct I as [<-|[]].
    split; [discriminate|exact F].
  - destruct (Ascii.eqb c ":") eqn:E.
    + destruct cur as [|x cur].
      * apply (IH EmptyString t); [reflexivity|exact I].
      * destruct I as [<-|I]; [split; [discriminate|exact F]|].
        apply (IH EmptyString t); [reflexivity|exact I].
    + apply (IH (cur ++ String c "")%string t); [|exact I].
      rewrite colon_free_app, F. simpl. now rewrite E.
Qed.

(** X3.  Every directory the PATH search tries is a non-empty piece of
    PATH without a colon: empty entries (a leading or trailing colon, two
    colons in a row) give no directory, so no candidate is ever built from
    an empty directory name. *)
Theorem strtok_all_directories (p t : string) :
  In t (strtok_all p) -> directory t.
Proof. apply strtok_from_tokens. reflexivity. Qed.

Lemma strtok_all_directories_witness :
  In "/bin"%string (strtok_all ":/usr/bin::/bin:") /\
  directory "/bin".
Proof.
  assert (I : In "/bin"%string (strtok_all ":/usr/bin::/bin:")).
  { right. left. reflexivity. }
  split; [exact I|].
  exact (strtok_all_directories ":/usr/bin::/bin:" "/bin" I).
Defined.

Lemma strtok_from_skip t : forall s cur,
  colon_free t = true ->
  strtok_from (t ++ s) cur = strtok_from s (cur ++ t).
Proof.
  induction t as [|c t IH]; intros s cur F.
  - now rewrite string_app_nil_r.
  - simpl in F. apply andb_true_iff in F. destruct F as [Fc F].
    apply negb_true_iff in Fc. cbn [append strtok_from]. rewrite Fc.
    rewrite IH by exact F. now rewrite string_app_assoc.
Qed.

Lemma strtok_all_single t : directory t -> strtok_all t = [t].
Proof.
  intros [N F]. unfold strtok_all.
  rewrite <- (string_app_nil_r t) at 1.
  rewrite strtok_from_skip by exact F. simpl.
  destruct t; [contradiction|reflexivity].
Qed.

(** X4.  Splitting is the inverse of joining: a list of directories
    joined with colons is split back into exactly that list, in the same
    order. *)
Theorem strtok_all_concat (dirs : list string) :
  Forall directory dirs ->
  strtok_all (String.concat ":" dirs) = dirs.
Proof.
  induction dirs as [|d dirs IH]; intros D; [reflexivity|].
  inversion D as [|? ? Dd Ddirs]; subst.
  destruct dirs as [|d' dirs].
  - apply strtok_all_single. exact Dd.
  - cbn [String.concat]. unfold strtok_all.
    destruct Dd as [N F]. rewrite strtok_from_skip by exact F.
    cbn [append strtok_from Ascii.eqb Bool.eqb].
    destruct d as [|c d]; [contradiction|].
    cbn [append]. f_equal. apply IH. exact Ddirs.
Qed.

Lemma strtok_all_concat_witness :
  let dirs := ["/usr/sbin"; "/usr/bin"; "/bin"]%string in
  Forall directory dirs /\
  strtok_all (String.concat ":" dirs) = dirs.
Proof.
  intros dirs.
  assert (D : Forall directory dirs).
  { repeat constructor; discriminate. }
  split; [exact D|]. exact (strtok_all_concat dirs D).
Defined.

Lemma strtok_from_colon_only p :
  colon_only p = true -> strtok_from p EmptyString = [].
Proof.
  induction p as [|c p IH]; intros H; [reflexivity|].
  simpl in H. apply andb_true_iff in H. destruct H as [Hc H].
  cbn [strtok_from]. rewrite Hc. now apply IH.
Qed.

(** ** The PATH search *)

Section Search.

Variable w : World.

(** The search changes nothing but [errno]. *)
Lemma find_in_tokens_keeps tokens file : forall s,
  let s' := state_of (find_in_tokens w tokens file s) in
  st_trace s' = st_trace s /\ st_PATH s' = st_PATH s.
Proof.
  induction tokens as [|token tokens IH]; intros s; cbn [find_in_tokens].
  - now split.
  - destruct (alloc_ok w AllocMalloc); [|now split].
    unfold bind, access.
    destruct (access_X_OK w (token ++ "/" ++ file)%string); cbn [Z.eqb].
    + now split.
    + apply (IH (set_errno e s)).
Qed.

Lemma find_in_tokens_is_find tokens file :
  alloc_ok w AllocMalloc = true ->
  forall s, exists s',
    find_in_tokens w tokens file s
    = Cont (option_map (fun dir => candidate dir file)
              (find (fun dir => executable w (candidate dir file)) tokens))
        s'.
Proof.
  intros A. induction tokens as [|token tokens IH]; intros s;
    cbn [find_in_tokens find].
  - now eexists.
  - rewrite A. unfold bind, access, executable, candidate.
    destruct (access_X_OK w (token ++ "/" ++ file)%string); cbn [Z.eqb].
    + now eexists.
    + apply IH.
Qed.

(** X5.  With PATH set and memory available, the search returns the
    candidate of the first directory of PATH, in PATH order, whose
    candidate passes [access(X_OK)], and null when there is none; it
    prints nothing and leaves PATH as it is. *)
Theorem path_search_first_match (file p : string) (s : state) :
  st_PATH s = Some p ->
  alloc_ok w AllocStrdup = true ->
  alloc_ok w AllocMalloc = true ->
  exists s',
    find_absolute_path_from_env w file s
    = Cont (option_map (fun dir => candidate dir file)
              (find (fun dir => executable w (candidate dir file))
                 (strtok_all p)))
        s' /\
    st_trace s' = st_trace s /\ st_PATH s' = st_PATH s.
Proof.
  intros P A1 A2. unfold find_absolute_path_from_env, bind, getenv_PATH.
  rewrite P, A1.
  destruct (find_in_tokens_is_find (strtok_all p) file A2 s) as [s' E].
  exists s'. split; [exact E|].
  pose proof (find_in_tokens_keeps (strtok_all p) file s) as K.
  cbv zeta in K. rewrite E in K. rewrite P in K. exact K.
Qed.

End Search.

Lemma path_search_first_match_witness :
  let w :=
    Scene.with_access
      (fun f => if String.eqb f "/bin/ls" then Ok else Err ENOENT)
      Scene.world in
  let s := boot (Some "/usr/bin:/bin"%string) in
  (st_PATH s = Some "/usr/bin:/bin"%string /\
   alloc_ok w AllocStrdup = true /\ alloc_ok w AllocMalloc = true) /\
  exists s',
    find_absolute_path_from_env w "ls" s = Cont (Some "/bin/ls"%string) s' /\
    st_trace s' = st_trace s /\ st_PATH s' = st_PATH s.
Proof.
  intros w s. split; [repeat split|].
  exact (path_search_first_match w "ls" "/usr/bin:/bin" s
           eq_refl eq_refl eq_refl).
Defined.

(** ** Past the identification of the caller *)

Lemma substring_all (a : string) : forall n,
  (String.length a <= n)%nat -> substring 0 n a = a.
Proof.
  induction a as [|c a IH]; intros [|n] L; simpl in *; try reflexivity;
    try lia.
  rewrite IH by lia. reflexivity.
Qed.

(** A name that passes the test of sr.c:147 is copied whole. *)
Lemma strndup_short (a : string) (n : nat) :
  Nat.ltb (strnlen a n) n = true -> strndup a n = a.
Proof.
  unfold strnlen, strndup. intros H. apply Nat.ltb_lt in H.
  apply substring_all. lia.
Qed.

Section Identified.

Variable w : World.

Lemma after_identity_trace user auth PATH :
  st_trace (after_identity w user auth PATH) = [EAuth user auth].
Proof. reflexivity. Qed.

Lemma after_identity_pristine user auth PATH :
  pristine (after_identity w user auth PATH).
Proof. repeat split. Qed.

(** What is left of [main] once the caller is identified. *)
Lemma main_identified argv environ PATH arguments rest user auth groups :
  identified w argv arguments rest user auth groups ->
  main w (List.length argv) argv environ (boot PATH)
  = bind
      (if negb (info arguments =? 0) then
         match role arguments with
         | None =>
             extern w SitePrintRights tt ;; emit (EPrintRights user groups)
         | Some r =>
             extern w SitePrintRights tt ;;
             emit (EPrintRightsRole r user groups)
         end
       else
         match slot rest 0 with
         | None => halt (Fault "strnlen")
         | Some argv0 =>
             if Nat.ltb (strnlen argv0 PATH_MAX) PATH_MAX
             then main_exec w user groups (List.length rest) rest argv0
                    environ
             else error1 "Command too long"
         end)
      (fun _ => ret 0)
      (after_identity w user auth PATH).
Proof.
  intros ([argc' P] & Hh & Hv & U & A & N & G).
  pose proof (parse_arguments_argc w argv _ _ _ _ P) as ->.
  unfold main. rewrite P, Hh, Hv. cbn [Z.eqb orb negb].
  unfold main_run.
  unfold bind at 1. unfold extern at 1. rewrite U.
  unfold bind at 1. unfold pam_authenticate_user_call.
  unfold bind at 1 2. unfold extern at 1. unfold emit, ret at 1.
  rewrite A. apply Z.eqb_neq in N. rewrite N.
  unfold bind at 1. unfold extern at 1.
  unfold bind at 1. unfold extern at 1.
  rewrite G. cbn [Z.eqb negb]. reflexivity.
Qed.

End Identified.

(** ** Help, version, info *)

(** X6.  An unknown option and [-h] both end the run with status 0 and
    the six usage lines, before the caller is looked up or authenticated
    and whatever else is on the command line.  The usage line names
    [argv[0]] as [parse_arguments] left it: the program name after an
    unknown option, but after [-h] the first word behind the options, and
    a null pointer ("(null)" with glibc) when there is none. *)
Theorem usage_exits_zero (w : World) (argv environ : list string) (PATH : ptr)
    (ret : Z) (argc' : nat) (argv' : list string) (arguments : arguments_t) :
  parse_arguments w (List.length argv) argv (mk_arguments None 0 0 0)
    = (ret, argc', argv', arguments) ->
  ret = 0 \/ help arguments <> 0 ->
  sr w argv environ PATH
  = (Exit 0, mk_state 0 false None false PATH (usage (slot argv' 0))) /\
  (ret = 0 -> slot argv' 0 = slot argv 0) /\
  (ret <> 0 -> argv' = skipn (snd (getopt_long w argv)) argv).
Proof.
  intros P H. split; [|split].
  - unfold sr, run, main. rewrite P.
    assert (E : (ret =? 0) || negb (help arguments =? 0) = true).
    { destruct H as [->|H]; [reflexivity|].
      apply Z.eqb_neq in H. rewrite H. apply orb_true_r. }
    rewrite E. reflexivity.
  - intros ->. pose proof (parse_arguments_shifts w argv
                             (mk_arguments None 0 0 0)) as S.
    cbv zeta in S. rewrite P in S.
    destruct S as [(_ & E & _)|(_ & _ & -> & _)];
      [discriminate|reflexivity].
  - intros N. pose proof (parse_arguments_shifts w argv
                            (mk_arguments None 0 0 0)) as S.
    cbv zeta in S. rewrite P in S.
    destruct S as [(_ & _ & E & _)|(_ & E & _)]; [exact E|contradiction].
Qed.

Lemma usage_exits_zero_witness :
  let w := Scene.world in
  (parse_arguments w 2 ["sr"; "-h"]%string (mk_arguments None 0 0 0)
   = (1, 0%nat, [], mk_arguments None 0 0 1) /\
   (1 = 0 \/ help (mk_arguments None 0 0 1) <> 0)) /\
  sr w ["sr"; "-h"]%string Scene.environ Scene.PATH
  = (Exit 0, mk_state 0 false None false Scene.PATH (usage None)).
Proof.
  intros w.
  assert (H : 1 = 0 \/ help (mk_arguments None 0 0 1) <> 0).
  { right. discriminate. }
  split; [split; [reflexivity|exact H]|].
  exact (proj1 (usage_exits_zero w ["sr"; "-h"]%string Scene.environ
                  Scene.PATH 1 0 [] (mk_arguments None 0 0 1) eq_refl H)).
Defined.

(** X7.  [-v] without [-h] ends the run with status 0 and the version
    line alone, before the caller is looked up or authenticated, whether
    or not [-i], [-r] or a command is given as well. *)
Theorem version_exits_zero (w : World) (argv environ : list string)
    (PATH : ptr) (argc' : nat) (argv' : list string)
    (arguments : arguments_t) :
  parse_arguments w (List.length argv) argv (mk_arguments None 0 0 0)
    = (1, argc', argv', arguments) ->
  help arguments = 0 -> version arguments <> 0 ->
  sr w argv environ PATH
  = (Exit 0,
     mk_state 0 false None false PATH [EStdout "SR version 3.0"]).
Proof.
  intros P Hh Hv. unfold sr, run, main. rewrite P, Hh.
  apply Z.eqb_neq in Hv. rewrite Hv. reflexivity.
Qed.

Lemma version_exits_zero_witness :
  let w := Scene.world in
  let argv := ["sr"; "-i"; "-v"; "-r"; "viewer"; "shutdown"]%string in
  (parse_arguments w 6 argv (mk_arguments None 0 0 0)
   = (1, 1%nat, ["shutdown"%string],
      mk_arguments (Some "viewer"%string) 1 1 0) /\
   version (mk_arguments (Some "viewer"%string) 1 1 0) <> 0) /\
  sr w argv Scene.environ Scene.PATH
  = (Exit 0,
     mk_state 0 false None false Scene.PATH [EStdout "SR version 3.0"]).
Proof.
  intros w argv.
  assert (V : version (mk_arguments (Some "viewer"%string) 1 1 0) <> 0)
    by discriminate.
  split; [split; [reflexivity|exact V]|].
  exact (version_exits_zero w argv Scene.environ Scene.PATH 1
           ["shutdown"%string] (mk_arguments (Some "viewer"%string) 1 1 0)
           eq_refl eq_refl V).
Defined.

(** X8.  In info mode an identified caller gets the rights printed once,
    for the role given with [-r] when there is one, and the run ends with
    status 0.  Nothing else happens: no capability primitive is called,
    nothing is launched, PATH is not touched, and the words behind the
    options are not even read, so a missing command is no fault here. *)
Theorem info_mode_reports_only (w : World) (argv environ : list string)
    (PATH : ptr) (arguments : arguments_t) (rest : list string)
    (user : string) (auth : Z) (groups : list string) :
  identified w argv arguments rest user auth groups ->
  info arguments <> 0 ->
  let o := fst (sr w argv environ PATH) in
  let s := snd (sr w argv environ PATH) in
  o = Exit 0 /\
  st_trace s
  = [EAuth user auth;
     match role arguments with
     | None => EPrintRights user groups
     | Some r => EPrintRightsRole r user groups
     end] /\
  st_setpcap s = false /\ st_iab s = None /\ st_securebits s = false /\
  st_PATH s = PATH.
Proof.
  intros I N. unfold sr, run.
  rewrite (main_identified w argv environ PATH _ _ _ _ _ I).
  apply Z.eqb_neq in N. rewrite N. cbn [negb].
  destruct (role arguments); repeat split.
Qed.

Lemma info_mode_reports_only_witness :
  let w := Scene.world in
  let argv := ["sr"; "-i"; "-r"; "viewer"]%string in
  let arguments := mk_arguments (Some "viewer"%string) 1 0 0 in
  (identified w argv arguments [] "alice" 1 ["alice"; "ops"]%string /\
   info arguments <> 0) /\
  fst (sr w argv Scene.environ Scene.PATH) = Exit 0 /\
  st_trace (snd (sr w argv Scene.environ Scene.PATH))
  = [EAuth "alice" 1;
     EPrintRightsRole "viewer" "alice" ["alice"; "ops"]%string].
Proof.
  intros w argv arguments.
  assert (I : identified w argv arguments [] "alice" 1
                ["alice"; "ops"]%string).
  { repeat split; try reflexivity; try discriminate.
    exists 0%nat. reflexivity. }
  assert (N : info arguments <> 0) by discriminate.
  split; [split; assumption|].
  destruct (info_mode_reports_only w argv Scene.environ Scene.PATH
              arguments [] "alice" 1 ["alice"; "ops"]%string I N)
    as (O & T & _).
  split; assumption.
Defined.

(** ** Failures before the policy is asked *)

(** X9.  A caller whose uid has no user name is turned away with status
    1 and one diagnostic before anything else happens: the authentication
    is not even attempted. *)
Theorem unknown_user_is_not_authenticated (w : World)
    (argv environ : list string) (PATH : ptr) (argc' : nat)
    (rest : list string) (arguments : arguments_t) :
  parse_arguments w (List.length argv) argv (mk_arguments None 0 0 0)
    = (1, argc', rest, arguments) ->
  help arguments = 0 -> version arguments = 0 ->
  get_username w (geteuid w) = None ->
  fst (sr w argv environ PATH) = Exit 1 /\
  st_trace (snd (sr w argv environ PATH))
  = [EStderr "Unable to retrieve the username of the executor"].
Proof.
  intros P Hh Hv U. unfold sr, run, main. rewrite P, Hh, Hv.
  cbn [Z.eqb orb negb]. unfold main_run, bind, extern. rewrite U.
  split; reflexivity.
Qed.

Lemma unknown_user_is_not_authenticated_witness :
  let w :=
    mk_World (getopt_long Scene.world) 0 (get_username Scene.world)
      (pam_authenticate_user Scene.world) (get_group_id Scene.world)
      (get_group_names Scene.world)
      (get_settings_from_config Scene.world)
      (setpcap_effective Scene.world) (cap_iab_set_proc Scene.world)
      (activates_securebits Scene.world) (filter_env_vars Scene.world)
      (secure_path Scene.world) (realpath Scene.world)
      (access_X_OK Scene.world) (execve Scene.world) (alloc_ok Scene.world)
      (errno_left Scene.world) in
  let argv := ["sr"; "shutdown"]%string in
  get_username w (geteuid w) = None /\
  fst (sr w argv Scene.environ Scene.PATH) = Exit 1 /\
  st_trace (snd (sr w argv Scene.environ Scene.PATH))
  = [EStderr "Unable to retrieve the username of the executor"].
Proof.
  intros w argv. split; [reflexivity|].
  exact (unknown_user_is_not_authenticated w argv Scene.environ Scene.PATH
           1 ["shutdown"%string] (mk_arguments None 0 0 0)
           eq_refl eq_refl eq_refl eq_refl).
Defined.

(** X10.  When the groups of an authenticated caller cannot be
    retrieved, the run ends with status 1 and one diagnostic, in info
    mode as in execution mode, before the rights are printed or the
    policy is asked. *)
Theorem missing_groups_stop_the_run (w : World) (argv environ : list string)
    (PATH : ptr) (argc' : nat) (rest : list string)
    (arguments : arguments_t) (user : string) :
  parse_arguments w (List.length argv) argv (mk_arguments None 0 0 0)
    = (1, argc', rest, arguments) ->
  help arguments = 0 -> version arguments = 0 ->
  get_username w (geteuid w) = Some user ->
  pam_authenticate_user w user <> 0 ->
  fst (get_group_names w user (get_group_id w (geteuid w))) <> 0 ->
  fst (sr w argv environ PATH) = Exit 1 /\
  st_trace (snd (sr w argv environ PATH))
  = [EAuth user (pam_authenticate_user w user);
     EStderr "Unable to retrieve the groups of the executor"].
Proof.
  intros P Hh Hv U A G. unfold sr, run, main. rewrite P, Hh, Hv.
  cbn [Z.eqb orb negb].
  unfold main_run, bind, extern, pam_authenticate_user_call, bind, extern,
    emit, ret.
  rewrite U. apply Z.eqb_neq in A. rewrite A.
  destruct (get_group_names w user (get_group_id w (geteuid w)))
    as [failed groups].
  cbn [fst] in G. apply Z.eqb_neq in G. rewrite G.
  split; reflexivity.
Qed.

Lemma missing_groups_stop_the_run_witness :
  let w :=
    mk_World (getopt_long Scene.world) (geteuid Scene.world)
      (get_username Scene.world) (pam_authenticate_user Scene.world)
      (get_group_id Scene.world) (fun _ _ => (1, []))
      (get_settings_from_config Scene.world)
      (setpcap_effective Scene.world) (cap_iab_set_proc Scene.world)
      (activates_securebits Scene.world) (filter_env_vars Scene.world)
      (secure_path Scene.world) (realpath Scene.world)
      (access_X_OK Scene.world) (execve Scene.world) (alloc_ok Scene.world)
      (errno_left Scene.world) in
  let argv := ["sr"; "-i"]%string in
  (pam_authenticate_user w "alice" <> 0 /\
   fst (get_group_names w "alice" (get_group_id w (geteuid w))) <> 0) /\
  fst (sr w argv Scene.environ Scene.PATH) = Exit 1 /\
  st_trace (snd (sr w argv Scene.environ Scene.PATH))
  = [EAuth "alice" 1;
     EStderr "Unable to retrieve the groups of the executor"].
Proof.
  intros w argv.
  assert (A : pam_authenticate_user w "alice" <> 0) by discriminate.
  assert (G : fst (get_group_names w "alice" (get_group_id w (geteuid w)))
              <> 0) by discriminate.
  split; [split; assumption|].
  exact (missing_groups_stop_the_run w argv Scene.environ Scene.PATH
           0 [] (mk_arguments None 1 0 0) "alice"
           eq_refl eq_refl eq_refl eq_refl A G).
Defined.

(** ** The execution branch, step by step *)

Lemma transition_run_launches iab lk calls failed :
  transition_run iab lk calls failed -> launches calls = [].
Proof. destruct 1; reflexivity. Qed.

Lemma launches_app (a b : list event) :
  launches (a ++ b) = launches a ++ launches b.
Proof. apply filter_app. Qed.

Section Execution.

Variable w : World.

Lemma find_in_tokens_halts tokens file : forall s o s',
  find_in_tokens w tokens file s = Halt o s' -> o = Fault "snprintf".
Proof.
  induction tokens as [|token tokens IH]; intros s o s' H;
    cbn [find_in_tokens] in H.
  - discriminate.
  - destruct (alloc_ok w AllocMalloc); [|now inversion H].
    unfold bind, access in H.
    destruct (access_X_OK w (token ++ "/" ++ file)%string);
      cbn [Z.eqb] in H; [discriminate|].
    apply (IH _ _ _ H).
Qed.

(** How the search ends from a state whose PATH is [P]. *)
Lemma find_absolute_path_from_env_cases file s :
  match find_absolute_path_from_env w file s with
  | Cont (Some c) s' =>
      st_trace s' = st_trace s /\ resolved w (st_PATH s) file c
  | Cont None s' => st_trace s' = st_trace s
  | Halt o s' => (exists callee, o = Fault callee) /\ st_trace s' = st_trace s
  end.
Proof.
  unfold find_absolute_path_from_env, bind, getenv_PATH, halt, ret.
  destruct (st_PATH s) as [p|] eqn:P; [|split; [now eexists|reflexivity]].
  destruct (alloc_ok w AllocStrdup); [|reflexivity].
  pose proof (find_in_tokens_keeps w (strtok_all p) file s) as [T _].
  destruct (find_in_tokens w (strtok_all p) file s) as [[c|] s'|o s'] eqn:F;
    cbn [state_of] in T.
  - split; [exact T|].
    destruct (find_in_tokens_found w _ _ _ _ _ F) as (dir & I & E & X).
    now exists p, dir.
  - exact T.
  - split; [|exact T]. exists "snprintf"%string.
    apply (find_in_tokens_halts _ _ _ _ _ F).
Qed.

(** How resolution ends from a state whose PATH is [P]. *)
Lemma main_resolve_cases argv0 s :
  match main_resolve w argv0 s with
  | Cont c s' =>
      st_trace s' = st_trace s /\ resolved w (st_PATH s) argv0 c /\
      realpath w argv0 <> inr ENAMETOOLONG
  | Halt o s' =>
      (o = Exit 1 /\
       st_trace s' = st_trace s ++ [EStderr "Path too long"] /\
       (realpath w argv0 = inr ENAMETOOLONG \/
        exists c, realpath w argv0 = inl c)) \/
      (o = Exit 1 /\
       st_trace s'
       = st_trace s ++ [EStderr (argv0 ++ " : Command not found")%string] /\
       realpath w argv0 <> inr ENAMETOOLONG) \/
      ((exists callee, o = Fault callee) /\ st_trace s' = st_trace s /\
       realpath w argv0 <> inr ENAMETOOLONG)
  end.
Proof.
  unfold main_resolve, bind at 1 2 3, errno, error1.
  destruct (realpath_null w argv0 s) as [command s1|] eqn:R.
  2:{ unfold realpath_null in R. destruct (realpath w argv0); discriminate. }
  assert (K1 : st_trace s1 = st_trace s /\ st_PATH s1 = st_PATH s /\
               ((realpath w argv0 = inr ENAMETOOLONG \/
                 exists c, realpath w argv0 = inl c) \/
                st_errno s1 <> ENAMETOOLONG /\
                realpath w argv0 <> inr ENAMETOOLONG)).
  { unfold realpath_null in R.
    destruct (realpath w argv0) as [c|e]; inversion R; subst;
      (split; [reflexivity|]); (split; [reflexivity|]).
    - left. right. now exists c.
    - cbn [st_errno set_errno].
      destruct (Z.eq_dec e ENAMETOOLONG) as [->|N]; [left; now left|].
      right. split; [exact N|]. intros E. inversion E. contradiction. }
  destruct K1 as (T1 & P1 & K1).
  destruct (st_errno s1 =? ENAMETOOLONG) eqn:Ee.
  { left. split; [reflexivity|]. cbn [st_trace log]. rewrite T1.
    split; [reflexivity|]. apply Z.eqb_eq in Ee.
    destruct K1 as [K1|[N _]]; [exact K1|contradiction]. }
  assert (N : realpath w argv0 <> inr ENAMETOOLONG).
  { destruct K1 as [[K1|[c K1]]|[_ K1]]; [| |exact K1].
    - unfold realpath_null in R. rewrite K1 in R. inversion R; subst.
      cbn [st_errno set_errno] in Ee. discriminate.
    - rewrite K1. discriminate. }
  destruct (access w command s1) as [r s2|] eqn:A.
  2:{ unfold access in A.
      destruct command as [f|]; [destruct (access_X_OK w f)|]; discriminate. }
  assert (K2 : st_trace s2 = st_trace s1 /\ st_PATH s2 = st_PATH s1).
  { unfold access in A.
    destruct command as [f|]; [destruct (access_X_OK w f)|];
      inversion A; subst; now split. }
  destruct K2 as [T2 P2].
  destruct (negb (r =? 0)).
  2:{ right. left. split; [reflexivity|].
      cbn [st_trace log]. rewrite T2, T1. now split. }
  unfold bind.
  pose proof (find_absolute_path_from_env_cases argv0 s2) as F.
  destruct (find_absolute_path_from_env w argv0 s2) as [[c|] s3|o s3].
  - destruct F as [T3 Rv]. split; [congruence|].
    split; [now rewrite P2, P1 in Rv|exact N].
  - right. left. split; [reflexivity|].
    cbn [st_trace log]. rewrite F, T2, T1. now split.
  - right. right. destruct F as [C T3]. split; [exact C|].
    split; [congruence|exact N].
Qed.

(** How [sr_execve] ends, called as [main] calls it. *)
Lemma sr_execve_cases command (argv : list string) p_envp s :
  match sr_execve w command (List.length argv) (vector argv) p_envp s with
  | Cont _ s' =>
      exists e,
        execve w command (vector argv) p_envp = Err e /\
        ((alloc_ok w AllocReallocarray = false /\
          st_trace s'
          = st_trace s ++ [EExecve command (vector argv) p_envp (Err e)]) \/
         (exists e',
             alloc_ok w AllocReallocarray = true /\
             execve w "/bin/sh" (shell_argv command argv) p_envp = Err e' /\
             st_trace s'
             = st_trace s ++ [EExecve command (vector argv) p_envp (Err e);
                              EExecve "/bin/sh" (shell_argv command argv)
                                p_envp (Err e')]))
  | Halt o s' =>
      (execve w command (vector argv) p_envp = Ok /\
       o = Replaced command (vector argv) p_envp /\
       st_trace s'
       = st_trace s ++ [EExecve command (vector argv) p_envp Ok]) \/
      (exists e,
          execve w command (vector argv) p_envp = Err e /\
          alloc_ok w AllocReallocarray = true /\
          execve w "/bin/sh" (shell_argv command argv) p_envp = Ok /\
          o = Replaced "/bin/sh" (shell_argv command argv) p_envp /\
          st_trace s'
          = st_trace s ++ [EExecve command (vector argv) p_envp (Err e);
                           EExecve "/bin/sh" (shell_argv command argv)
                             p_envp Ok])
  end.
Proof.
  unfold sr_execve, bind, execve_call, errno, ret, shell_argv.
  destruct (execve w command (vector argv) p_envp) as [|e] eqn:X1.
  { left. now repeat split. }
  cbn [Z.eqb orb].
  destruct (alloc_ok w AllocReallocarray) eqn:Al.
  2:{ exists e. split; [reflexivity|]. left. now split. }
  rewrite sr_nargv_vector.
  destruct (execve w "/bin/sh"%string
              (map Some ("sh"%string :: command :: argv)) p_envp)
    as [|e'] eqn:X2.
  - right. exists e. repeat split.
    cbn [st_trace log set_errno]. now rewrite <- app_assoc.
  - exists e. split; [reflexivity|]. right. exists e'. repeat split.
    cbn [st_trace log set_errno]. now rewrite <- app_assoc.
Qed.

(** What sr.c:169-191 does from any state. *)
Lemma main_launch_cases options (rest : list string) argv0 environ s :
  match main_launch w options (List.length rest) rest argv0 environ s with
  | Cont _ s' =>
      exists post,
        st_trace s' = st_trace s ++ post /\
        launch_run w options environ (st_PATH s) rest argv0 post None
  | Halt o s' =>
      exists post,
        st_trace s' = st_trace s ++ post /\
        launch_run w options environ (st_PATH s) rest argv0 post (Some o)
  end.
Proof.
  unfold main_launch. unfold bind at 1. unfold extern.
  pose proof (eq_refl (filtered w environ options)) as Ef.
  unfold filtered in Ef at 1.
  destruct (filter_env_vars w environ (env_keep options) (env_check options))
    as [res env] eqn:Fe.
  cbv beta iota.
  destruct (res >? 0) eqn:G.
  { exists [EStderr "Unable to filter environment variables"].
    split; [reflexivity|]. apply launch_no_environment.
    rewrite <- Ef. cbn [fst]. destruct (Z.gtb_spec res 0); [lia|discriminate]. }
  assert (Hf : fst (filtered w environ options) <= 0).
  { rewrite <- Ef. cbn [fst]. destruct (Z.gtb_spec res 0); [discriminate|lia]. }
  assert (He : snd (filtered w environ options) = env) by now rewrite <- Ef.
  unfold bind at 1. unfold getenv_PATH. unfold bind at 1.
  unfold secure_path_call. cbn [st_PATH clobber].
  destruct (fst (secure_path w (st_PATH s) (path options)) =? 0) eqn:Sp.
  { exists [EStderr "Unable to secure path"].
    split; [reflexivity|]. apply Z.eqb_eq in Sp. now apply launch_no_path. }
  apply Z.eqb_neq in Sp.
  set (s1 := with_PATH (snd (secure_path w (st_PATH s) (path options)))
               (clobber w SiteSecurePath (clobber w SiteFilterEnv s))).
  assert (T1 : st_trace s1 = st_trace s) by reflexivity.
  assert (P1 : st_PATH s1 = snd (secure_path w (st_PATH s) (path options)))
    by reflexivity.
  clearbody s1. unfold bind.
  pose proof (main_resolve_cases argv0 s1) as R.
  destruct (main_resolve w argv0 s1) as [c s2|o s2].
  - destruct R as (T2 & Rv & N). rewrite P1 in Rv.
    pose proof (sr_execve_cases c rest env s2) as X.
    destruct (sr_execve w c (List.length rest) (vector rest) env s2)
      as [[] s3|o s3]; rewrite <- He in X.
    + destruct X as [e [X1 [[Al T3]|(e' & Al & X2 & T3)]]]; rewrite T3, T2, T1;
        eexists; (split; [reflexivity|]).
      * now apply launch_returned.
      * now apply launch_shell_failed.
    + destruct X as [(X1 & -> & T3)|(e & X1 & Al & X2 & -> & T3)];
        rewrite T3, T2, T1; eexists; (split; [reflexivity|]).
      * now apply launch_replaced.
      * now apply launch_shell with (e := e).
  - destruct R as [(-> & T2 & M)|[(-> & T2 & N)|([callee ->] & T2 & N)]];
      rewrite T2, T1.
    + eexists. split; [reflexivity|]. now apply launch_too_long.
    + eexists. split; [reflexivity|]. now apply launch_not_found.
    + exists []. split; [now rewrite app_nil_r|]. now apply launch_fault.
Qed.

End Execution.

Section Granted.

Variable w : World.

Lemma main_exec_granted user groups argc rest argv0 environ iab options s :
  Nat.ltb (strnlen argv0 PATH_MAX) PATH_MAX = true ->
  get_settings_from_config w user groups argv0 = Some (iab, options) ->
  main_exec w user groups argc rest argv0 environ s
  = bind (main_transition w iab options)
      (fun _ => main_launch w options argc rest argv0 environ)
      (clobber w SiteConfig s).
Proof.
  intros L C. unfold main_exec. unfold bind at 1. unfold extern.
  rewrite (strndup_short _ _ L), C. reflexivity.
Qed.

Lemma main_exec_denied user groups argc rest argv0 environ s :
  Nat.ltb (strnlen argv0 PATH_MAX) PATH_MAX = true ->
  get_settings_from_config w user groups argv0 = None ->
  main_exec w user groups argc rest argv0 environ s
  = Halt (Exit 1) (log (EStderr "Permission denied") (clobber w SiteConfig s)).
Proof.
  intros L C. unfold main_exec. unfold bind at 1. unfold extern.
  rewrite (strndup_short _ _ L), C. reflexivity.
Qed.

Lemma main_transition_PATH iab options s :
  st_PATH (state_of (main_transition w iab options s)) = st_PATH s.
Proof.
  unfold main_transition, bind, setpcap_effective_call, cap_iab_set_proc_call,
    activates_securebits_call, error1, ret.
  destruct (setpcap_effective w true =? 0); [|reflexivity].
  destruct (cap_iab_set_proc w iab =? 0); [|reflexivity].
  destruct (setpcap_effective w false =? 0); [|reflexivity].
  destruct (no_root options =? 0); [reflexivity|].
  destruct (activates_securebits w =? 0); reflexivity.
Qed.


(** A run for an identified caller to whom the policy grants the command
    word: the transition fails and the run ends there, or it completes
    and sr.c:169-191 follows. *)
Lemma sr_granted_cases argv environ PATH arguments argv0 rest' user auth
    groups iab options r :
  identified w argv arguments (argv0 :: rest') user auth groups ->
  info arguments = 0 ->
  Nat.ltb (strnlen argv0 PATH_MAX) PATH_MAX = true ->
  get_settings_from_config w user groups argv0 = Some (iab, options) ->
  r = sr w argv environ PATH ->
  (exists calls msg,
      transition_run iab (lock options) calls true /\
      st_trace (snd r) = EAuth user auth :: calls ++ [EStderr msg] /\
      fst r = Exit 1 /\
      st_setpcap (snd r) = raised_after calls) \/
  (exists calls post o',
      transition_run iab (lock options) calls false /\
      launch_run w options environ PATH (argv0 :: rest') argv0 post o' /\
      st_trace (snd r) = EAuth user auth :: calls ++ post /\
      fst r = match o' with Some o => o | None => Exit 0 end /\
      st_setpcap (snd r) = false /\
      st_iab (snd r) = Some iab /\
      st_securebits (snd r) = lock options).
Proof.
  intros I Hi L C E. unfold sr, run in E.
  rewrite (main_identified w argv environ PATH _ _ _ _ _ I) in E.
  rewrite Hi in E. cbn [Z.eqb negb] in E.
  change (slot (argv0 :: rest') 0) with (Some argv0) in E.
  cbv beta iota in E. rewrite L in E.
  unfold bind at 1 in E.
  rewrite (main_exec_granted _ _ _ _ _ _ _ _ _ L C) in E.
  set (s0 := clobber w SiteConfig (after_identity w user auth PATH)) in E.
  assert (T0 : st_trace s0 = [EAuth user auth]) by reflexivity.
  assert (P0 : st_PATH s0 = PATH) by reflexivity.
  pose proof (main_transition_runs w iab options s0 eq_refl eq_refl) as R.
  pose proof (main_transition_PATH iab options s0) as P1.
  clearbody s0. unfold bind at 1 in E.
  destruct (main_transition w iab options s0) as [[] s1|o s1];
    cbn [state_of] in P1.
  2:{ left. destruct R as (-> & calls & msg & R & T1 & B1).
      exists calls, msg. subst r. cbn [fst snd]. rewrite T1, T0.
      repeat split; assumption. }
  destruct R as (calls & R & T1 & A1 & B1 & C1).
  pose proof (main_launch_cases w options (argv0 :: rest') argv0 environ s1)
    as X.
  rewrite P1, P0 in X.
  pose proof (quiet_main_launch w options (List.length (argv0 :: rest'))
                (argv0 :: rest') argv0 environ s1) as (A2 & B2 & C2 & _).
  right. exists calls.
  destruct (main_launch w options (List.length (argv0 :: rest'))
              (argv0 :: rest') argv0 environ s1) as [[] s2|o s2];
    cbn [state_of] in A2, B2, C2; destruct X as (post & T2 & X);
    [exists post, None|exists post, (Some o)];
    subst r; cbv beta iota delta [ret fst snd]; rewrite T2, T1, T0;
    repeat split; try assumption; try congruence;
    now rewrite <- app_assoc.
Qed.

(** The same without the conditions on the command line: a run that asks
    for the rights, or names a command of PATH_MAX characters or more,
    launches nothing. *)
Lemma sr_granted_launches argv environ PATH arguments argv0 rest' user auth
    groups iab options r :
  identified w argv arguments (argv0 :: rest') user auth groups ->
  get_settings_from_config w user groups argv0 = Some (iab, options) ->
  r = sr w argv environ PATH ->
  launches (st_trace (snd r)) = [] \/
  exists calls post o',
    transition_run iab (lock options) calls false /\
    launch_run w options environ PATH (argv0 :: rest') argv0 post o' /\
    st_trace (snd r) = EAuth user auth :: calls ++ post.
Proof.
  intros I C E.
  destruct (info arguments =? 0) eqn:Hi.
  2:{ left. subst r. unfold sr, run.
      rewrite (main_identified w argv environ PATH _ _ _ _ _ I), Hi.
      cbn [negb]. destruct (role arguments); reflexivity. }
  apply Z.eqb_eq in Hi.
  destruct (Nat.ltb (strnlen argv0 PATH_MAX) PATH_MAX) eqn:L.
  2:{ left. subst r. unfold sr, run.
      rewrite (main_identified w argv environ PATH _ _ _ _ _ I), Hi.
      cbn [Z.eqb negb].
      change (slot (argv0 :: rest') 0) with (Some argv0). cbv beta iota.
      rewrite L. reflexivity. }
  destruct (sr_granted_cases _ _ _ _ _ _ _ _ _ _ _ _ I Hi L C E)
    as [(calls & msg & R & T & _)
       |(calls & post & o' & R & X & T & _)].
  - left. rewrite T.
    change (EAuth user auth :: calls ++ [EStderr msg])
      with ([EAuth user auth] ++ calls ++ [EStderr msg]).
    rewrite !launches_app, (transition_run_launches _ _ _ _ R). reflexivity.
  - right. now exists calls, post, o'.
Qed.

End Granted.

(** ** The transition of a granted run *)

Lemma launch_run_cap_calls w options environ P rest argv0 post o' :
  launch_run w options environ P rest argv0 post o' -> cap_calls post = [].
Proof. destruct 1; reflexivity. Qed.

(** C6.  The capability transition of a granted run follows the ordered
    protocol.  For an identified caller to whom the policy store grants
    the command word, with the triple [iab] and the options [options]:
    the run authenticates, then calls the capability primitives, one
    after the other and with nothing in between, as a run of acquire,
    install of [iab], release and, exactly when [no_root] is set,
    lockdown, cut at the first call that fails; the capability
    primitives are called nowhere else.  When a call fails the process
    exits with status 1 and the only thing it does after the failing call
    is print one diagnostic: no retry, no later step. *)
Theorem transition_follows_protocol (w : World) (argv environ : list string)
    (PATH : ptr) (arguments : arguments_t) (argv0 : string)
    (rest' : list string) (user : string) (auth : Z) (groups : list string)
    (iab : cap_iab_t) (options : options_t) :
  identified w argv arguments (argv0 :: rest') user auth groups ->
  info arguments = 0 ->
  Nat.ltb (strnlen argv0 PATH_MAX) PATH_MAX = true ->
  get_settings_from_config w user groups argv0 = Some (iab, options) ->
  let o := fst (sr w argv environ PATH) in
  let tr := st_trace (snd (sr w argv environ PATH)) in
  exists failed post,
    transition_run iab (negb (no_root options =? 0)) (cap_calls tr) failed /\
    tr = EAuth user auth :: cap_calls tr ++ post /\
    cap_calls post = [] /\
    (failed = true ->
     o = Exit 1 /\
     exists before call msg,
       cap_calls tr = before ++ [call] /\ call_failed call = true /\
       post = [EStderr msg]).
Proof.
  intros I Hi L C. cbv zeta.
  destruct (sr_granted_cases w argv environ PATH _ _ _ _ _ _ _ _ _
              I Hi L C eq_refl)
    as [(calls & msg & R & T & O & _)
       |(calls & post & o' & R & X & T & _)].
  - assert (E : cap_calls (st_trace (snd (sr w argv environ PATH))) = calls).
    { rewrite T.
      change (EAuth user auth :: calls ++ [EStderr msg])
        with ([EAuth user auth] ++ calls ++ [EStderr msg]).
      rewrite !cap_calls_app, (transition_run_cap_calls _ _ _ _ R).
      simpl. now rewrite app_nil_r. }
    exists true, [EStderr msg]. rewrite E.
    split; [exact R|]. split; [exact T|]. split; [reflexivity|].
    intros _. split; [exact O|].
    destruct (transition_run_stops _ _ _ R) as (before & call & B & F & _).
    now exists before, call, msg.
  - pose proof (launch_run_cap_calls _ _ _ _ _ _ _ _ X) as Q.
    assert (E : cap_calls (st_trace (snd (sr w argv environ PATH))) = calls).
    { rewrite T.
      change (EAuth user auth :: calls ++ post)
        with ([EAuth user auth] ++ calls ++ post).
      rewrite !cap_calls_app, (transition_run_cap_calls _ _ _ _ R), Q.
      simpl. now rewrite app_nil_r. }
    exists false, post. rewrite E.
    split; [exact R|]. split; [exact T|]. split; [exact Q|]. discriminate.
Qed.

Lemma transition_follows_protocol_witness :
  let w := Scene.with_cap_iab_set_proc (fun _ => -1) Scene.world in
  let argv := ["sr"; "shutdown"]%string in
  let iab := mk_iab [] [Scene.CAP_SYS_BOOT] [] in
  let o := fst (sr w argv Scene.environ Scene.PATH) in
  let tr := st_trace (snd (sr w argv Scene.environ Scene.PATH)) in
  (identified w argv (mk_arguments None 0 0 0) ["shutdown"%string] "alice" 1
     ["alice"; "ops"]%string /\
   Nat.ltb (strnlen "shutdown" PATH_MAX) PATH_MAX = true /\
   get_settings_from_config w "alice" ["alice"; "ops"]%string "shutdown"
   = Some (iab, Scene.ops_options)) /\
  cap_calls tr = [ESetpcap true 0; ECapIabSetProc iab (-1)] /\
  exists failed post,
    transition_run iab (negb (no_root Scene.ops_options =? 0))
      (cap_calls tr) failed /\
    tr = EAuth "alice" 1 :: cap_calls tr ++ post /\
    cap_calls post = [] /\
    (failed = true ->
     o = Exit 1 /\
     exists before call msg,
       cap_calls tr = before ++ [call] /\ call_failed call = true /\
       post = [EStderr msg]).
Proof.
  intros w argv iab o tr.
  assert (I : identified w argv (mk_arguments None 0 0 0)
                ["shutdown"%string] "alice" 1 ["alice"; "ops"]%string).
  { repeat split; try reflexivity; try discriminate.
    exists 1%nat. reflexivity. }
  assert (L : Nat.ltb (strnlen "shutdown" PATH_MAX) PATH_MAX = true)
    by reflexivity.
  assert (C : get_settings_from_config w "alice" ["alice"; "ops"]%string
                "shutdown" = Some (iab, Scene.ops_options)) by reflexivity.
  split; [split; [exact I|split; [exact L|exact C]]|].
  split; [reflexivity|].
  exact (transition_follows_protocol w argv Scene.environ Scene.PATH
           (mk_arguments None 0 0 0) "shutdown" [] "alice" 1
           ["alice"; "ops"]%string iab Scene.ops_options I eq_refl L C).
Defined.

(** ** Denial *)

(** X11.  The policy is asked about the command word exactly as it was
    typed, before any resolution.  When it grants nothing for the caller,
    the groups and that word, the run ends with status 1 and the one line
    "Permission denied"; no capability primitive has been called, PATH is
    untouched and nothing is launched. *)
Theorem denied_run (w : World) (argv environ : list string) (PATH : ptr)
    (arguments : arguments_t) (argv0 : string) (rest' : list string)
    (user : string) (auth : Z) (groups : list string) :
  identified w argv arguments (argv0 :: rest') user auth groups ->
  info arguments = 0 ->
  Nat.ltb (strnlen argv0 PATH_MAX) PATH_MAX = true ->
  get_settings_from_config w user groups argv0 = None ->
  let o := fst (sr w argv environ PATH) in
  let s := snd (sr w argv environ PATH) in
  o = Exit 1 /\
  st_trace s = [EAuth user auth; EStderr "Permission denied"] /\
  st_setpcap s = false /\ st_iab s = None /\ st_securebits s = false /\
  st_PATH s = PATH.
Proof.
  intros I Hi L C. unfold sr, run.
  rewrite (main_identified w argv environ PATH _ _ _ _ _ I).
  rewrite Hi. cbn [Z.eqb negb].
  change (slot (argv0 :: rest') 0) with (Some argv0). cbv beta iota.
  rewrite L. unfold bind.
  rewrite (main_exec_denied w _ _ _ _ _ _ _ L C). repeat split.
Qed.

Lemma denied_run_witness :
  let w := Scene.world in
  let argv := ["sr"; "reboot"]%string in
  (identified w argv (mk_arguments None 0 0 0) ["reboot"%string] "alice" 1
     ["alice"; "ops"]%string /\
   Nat.ltb (strnlen "reboot" PATH_MAX) PATH_MAX = true /\
   get_settings_from_config w "alice" ["alice"; "ops"]%string "reboot"
   = None) /\
  fst (sr w argv Scene.environ Scene.PATH) = Exit 1 /\
  st_trace (snd (sr w argv Scene.environ Scene.PATH))
  = [EAuth "alice" 1; EStderr "Permission denied"].
Proof.
  intros w argv.
  assert (I : identified w argv (mk_arguments None 0 0 0)
                ["reboot"%string] "alice" 1 ["alice"; "ops"]%string).
  { repeat split; try reflexivity; try discriminate.
    exists 1%nat. reflexivity. }
  assert (L : Nat.ltb (strnlen "reboot" PATH_MAX) PATH_MAX = true)
    by reflexivity.
  assert (C : get_settings_from_config w "alice" ["alice"; "ops"]%string
                "reboot" = None) by reflexivity.
  split; [split; [exact I|split; [exact L|exact C]]|].
  destruct (denied_run w argv Scene.environ Scene.PATH
              (mk_arguments None 0 0 0) "reboot" [] "alice" 1
              ["alice"; "ops"]%string I eq_refl L C) as (O & T & _).
  split; assumption.
Defined.

(** ** Exit status *)



(** ** What is launched, when, and with what *)

Lemma transition_run_cap_call iab lk calls failed e :
  transition_run iab lk calls failed -> In e calls -> is_cap_call e = true.
Proof.
  destruct 1; simpl; intros I;
    repeat (destruct I as [<-|I]; [reflexivity|]); contradiction.
Qed.

Lemma launches_granted user auth calls post iab lk :
  transition_run iab lk calls false ->
  launches (EAuth user auth :: calls ++ post) = launches post.
Proof.
  intros R. change (EAuth user auth :: calls ++ post)
    with ([EAuth user auth] ++ calls ++ post).
  rewrite !launches_app, (transition_run_launches _ _ _ _ R). reflexivity.
Qed.

(** The launches of sr.c:169-191: none, the command, or the command and
    then one attempt at the shell, each with the kernel's answer. *)
Lemma launch_run_launches w options environ P rest argv0 post o' :
  launch_run w options environ P rest argv0 post o' ->
  launches post = [] \/
  fst (filtered w environ options) <= 0 /\
  fst (secure_path w P (path options)) <> 0 /\
  exists c,
    resolved w (snd (secure_path w P (path options))) argv0 c /\
    let env := snd (filtered w environ options) in
    let r1 := execve w c (vector rest) env in
    (launches post = [EExecve c (vector rest) env r1] /\
     (r1 = Ok \/ alloc_ok w AllocReallocarray = false) \/
     r1 <> Ok /\
     launches post
     = [EExecve c (vector rest) env r1;
        EExecve "/bin/sh" (shell_argv c rest) env
          (execve w "/bin/sh" (shell_argv c rest) env)]).
Proof.
  destruct 1 as [| | | | |c F S N R X|c e F S N R X A|c e F S N R X A Y
                |c e e' F S N R X A Y];
    try (now left); right; (split; [exact F|]); (split; [exact S|]);
    exists c; (split; [exact R|]); cbv zeta; rewrite X.
  - left. split; [reflexivity|now left].
  - left. split; [reflexivity|now right].
  - right. split; [discriminate|]. now rewrite Y.
  - right. split; [discriminate|]. now rewrite Y.
Qed.



(** X14.  Whatever a run launches, the command or the shell, gets as its
    environment the list [filter_env_vars] produced from the inherited
    environment for the options the policy store granted to this caller
    for this command word, and nothing else; and that call returned no
    positive value. *)
Theorem launches_carry_filtered_environment (w : World)
    (argv environ : list string) (PATH : ptr) (arguments : arguments_t)
    (argv0 : string) (rest' : list string) (user : string) (auth : Z)
    (groups : list string) (iab : cap_iab_t) (options : options_t)
    (file : string) (args : list ptr) (envp : list string) (ret : sysret) :
  identified w argv arguments (argv0 :: rest') user auth groups ->
  get_settings_from_config w user groups argv0 = Some (iab, options) ->
  In (EExecve file args envp ret)
    (st_trace (snd (sr w argv environ PATH))) ->
  fst (filter_env_vars w environ (env_keep options) (env_check options))
  <= 0 /\
  envp
  = snd (filter_env_vars w environ (env_keep options) (env_check options)).
Proof.
  intros I C H.
  assert (L : In (EExecve file args envp ret)
                (launches (st_trace (snd (sr w argv environ PATH))))).
  { apply filter_In. now split. }
  destruct (sr_granted_launches w argv environ PATH _ _ _ _ _ _ _ _ _
              I C eq_refl)
    as [E|(calls & post & o' & R & X & T)].
  { rewrite E in L. contradiction. }
  rewrite T, (launches_granted _ _ _ _ _ _ R) in L.
  destruct (launch_run_launches _ _ _ _ _ _ _ _ X)
    as [E|(F & _ & c & _ & [[E _]|[_ E]])];
    rewrite E in L; [contradiction| |].
  - destruct L as [L|[]]. inversion L. now split.
  - destruct L as [L|[L|[]]]; inversion L; now split.
Qed.

Lemma launches_carry_filtered_environment_witness :
  let w := Scene.world in
  let argv := ["sr"; "shutdown"]%string in
  let tr := st_trace (snd (sr w argv Scene.environ Scene.PATH)) in
  (identified w argv (mk_arguments None 0 0 0) ["shutdown"%string] "alice" 1
     ["alice"; "ops"]%string /\
   get_settings_from_config w "alice" ["alice"; "ops"]%string "shutdown"
   = Some (mk_iab [] [Scene.CAP_SYS_BOOT] [], Scene.ops_options) /\
   In (EExecve "/usr/sbin/shutdown" [Some "shutdown"%string; None]
         ["TERM=xterm"; "LANG=C"]%string Ok) tr) /\
  fst (filter_env_vars w Scene.environ (env_keep Scene.ops_options)
         (env_check Scene.ops_options)) <= 0 /\
  ["TERM=xterm"; "LANG=C"]%string
  = snd (filter_env_vars w Scene.environ (env_keep Scene.ops_options)
           (env_check Scene.ops_options)).
Proof.
  intros w argv tr.
  assert (I : identified w argv (mk_arguments None 0 0 0)
                ["shutdown"%string] "alice" 1 ["alice"; "ops"]%string).
  { repeat split; try reflexivity; try discriminate.
    exists 1%nat. reflexivity. }
  assert (C : get_settings_from_config w "alice" ["alice"; "ops"]%string
                "shutdown"
              = Some (mk_iab [] [Scene.CAP_SYS_BOOT] [], Scene.ops_options))
    by reflexivity.
  assert (H : In (EExecve "/usr/sbin/shutdown"
                    [Some "shutdown"%string; None]
                    ["TERM=xterm"; "LANG=C"]%string Ok) tr).
  { do 4 right. left. reflexivity. }
  split; [split; [exact I|split; [exact C|exact H]]|].
  exact (launches_carry_filtered_environment w argv Scene.environ Scene.PATH
           (mk_arguments None 0 0 0) "shutdown" [] "alice" 1
           ["alice"; "ops"]%string _ Scene.ops_options _ _ _ _ I C H).
Defined.

(** X15.  A run launches at most twice, and what it launches is fixed by
    the options the policy store granted to this caller for this command
    word.  The first launch is the candidate of a directory of the PATH
    that [secure_path] made of the inherited PATH and the granted path,
    one that passed [access(X_OK)], with the words behind the options as
    its argument vector and the filtered environment.  There is a second
    one only when the kernel refused the first and the vector for the
    shell could be allocated: one attempt at /bin/sh with "sh", the path
    of the command and all of those words, in a vector without a
    terminator. *)
Theorem launch_sequence (w : World) (argv environ : list string)
    (PATH : ptr) (arguments : arguments_t) (argv0 : string)
    (rest' : list string) (user : string) (auth : Z) (groups : list string)
    (iab : cap_iab_t) (options : options_t) :
  identified w argv arguments (argv0 :: rest') user auth groups ->
  get_settings_from_config w user groups argv0 = Some (iab, options) ->
  let tr := st_trace (snd (sr w argv environ PATH)) in
  let env :=
    snd (filter_env_vars w environ (env_keep options) (env_check options)) in
  argv0 :: rest' = skipn (snd (getopt_long w argv)) argv /\
  (launches tr = [] \/
   exists dir p,
     snd (secure_path w PATH (path options)) = Some p /\
     In dir (strtok_all p) /\
     access_X_OK w (candidate dir argv0) = Ok /\
     let c := candidate dir argv0 in
     let first :=
       EExecve c (vector (argv0 :: rest')) env
         (execve w c (vector (argv0 :: rest')) env) in
     let nargv := map Some ("sh"%string :: c :: argv0 :: rest') in
     (launches tr = [first] /\
      (execve w c (vector (argv0 :: rest')) env = Ok \/
       alloc_ok w AllocReallocarray = false) \/
      execve w c (vector (argv0 :: rest')) env <> Ok /\
      launches tr
      = [first; EExecve "/bin/sh" nargv env (execve w "/bin/sh" nargv env)])).
Proof.
  intros I C. cbv zeta. split.
  { destruct I as ([argc' P] & _).
    pose proof (parse_arguments_shifts w argv (mk_arguments None 0 0 0)) as Sh.
    cbv zeta in Sh. rewrite P in Sh.
    destruct Sh as [(_ & _ & Sk & _)|(_ & Z0 & _)]; [exact Sk|discriminate]. }
  destruct (sr_granted_launches w argv environ PATH _ _ _ _ _ _ _ _ _
              I C eq_refl)
    as [E|(calls & post & o' & R & X & T)]; [now left|].
  rewrite T, (launches_granted _ _ _ _ _ _ R).
  destruct (launch_run_launches _ _ _ _ _ _ _ _ X)
    as [E|(_ & _ & c & (p & dir & Sp & In' & -> & Ax) & L)];
    [now left|right].
  exists dir, p. split; [exact Sp|]. split; [exact In'|].
  split; [exact Ax|]. exact L.
Qed.

Lemma launch_sequence_witness :
  let w := Scene.with_execve
             (fun file args _ =>
                if String.eqb file "/bin/sh"
                then match last args (Some EmptyString) with
                     | None => Ok
                     | Some _ => Err EFAULT
                     end
                else Err ENOEXEC)
             Scene.world in
  let argv := ["sr"; "shutdown"; "now"]%string in
  let tr := st_trace (snd (sr w argv Scene.environ Scene.PATH)) in
  (identified w argv (mk_arguments None 0 0 0) ["shutdown"; "now"]%string
     "alice" 1 ["alice"; "ops"]%string /\
   get_settings_from_config w "alice" ["alice"; "ops"]%string "shutdown"
   = Some (mk_iab [] [Scene.CAP_SYS_BOOT] [], Scene.ops_options)) /\
  launches tr
  = [EExecve "/usr/sbin/shutdown"
       [Some "shutdown"; Some "now"; None]%string
       ["TERM=xterm"; "LANG=C"]%string (Err ENOEXEC);
     EExecve "/bin/sh"
       [Some "sh"; Some "/usr/sbin/shutdown"; Some "shutdown"; Some "now"]%string
       ["TERM=xterm"; "LANG=C"]%string (Err EFAULT)] /\
  ["shutdown"; "now"]%string = skipn (snd (getopt_long w argv)) argv /\
  (launches tr = [] \/
   exists dir p,
     snd (secure_path w Scene.PATH (path Scene.ops_options)) = Some p /\
     In dir (strtok_all p) /\
     access_X_OK w (candidate dir "shutdown") = Ok /\
     let env :=
       snd (filter_env_vars w Scene.environ (env_keep Scene.ops_options)
              (env_check Scene.ops_options)) in
     let c := candidate dir "shutdown" in
     let first :=
       EExecve c (vector ["shutdown"; "now"]%string) env
         (execve w c (vector ["shutdown"; "now"]%string) env) in
     let nargv := map Some ["sh"; c; "shutdown"; "now"]%string in
     (launches tr = [first] /\
      (execve w c (vector ["shutdown"; "now"]%string) env = Ok \/
       alloc_ok w AllocReallocarray = false) \/
      execve w c (vector ["shutdown"; "now"]%string) env <> Ok /\
      launches tr
      = [first; EExecve "/bin/sh" nargv env (execve w "/bin/sh" nargv env)])).
Proof.
  intros w argv tr.
  assert (I : identified w argv (mk_arguments None 0 0 0)
                ["shutdown"; "now"]%string "alice" 1
                ["alice"; "ops"]%string).
  { repeat split; try reflexivity; try discriminate.
    exists 2%nat. reflexivity. }
  assert (C : get_settings_from_config w "alice" ["alice"; "ops"]%string
                "shutdown"
              = Some (mk_iab [] [Scene.CAP_SYS_BOOT] [], Scene.ops_options))
    by reflexivity.
  split; [split; [exact I|exact C]|].
  split; [reflexivity|].
  exact (launch_sequence w argv Scene.environ Scene.PATH
           (mk_arguments None 0 0 0) "shutdown" ["now"%string] "alice" 1
           ["alice"; "ops"]%string _ Scene.ops_options I C).
Defined.

(** ** [sr_execve] and the resolution, case by case *)


(** X17.  When the name does not canonicalise, resolution depends on
    PATH alone.  With PATH unset the search hands a null pointer to
    [strdup] (the null test of sr.c:72 comes after the call) and the run
    ends in a fault, without a diagnostic.  With a PATH that holds no
    directory at all (empty, or colons only) no candidate is tried and
    the run ends with "Command not found". *)
Theorem resolution_needs_a_directory (w : World) (argv0 : string) (e : Z)
    (s : state) :
  realpath w argv0 = inr e ->
  e <> ENAMETOOLONG ->
  match st_PATH s with
  | None =>
      main_resolve w argv0 s
      = Halt (Fault "strdup") (set_errno EFAULT (set_errno e s))
  | Some p =>
      colon_only p = true ->
      main_resolve w argv0 s
      = Halt (Exit 1)
          (log (EStderr (argv0 ++ " : Command not found")%string)
             (set_errno EFAULT (set_errno e s)))
  end.
Proof.
  intros R N. apply Z.eqb_neq in N.
  unfold main_resolve, bind, realpath_null, errno, access,
    find_absolute_path_from_env, bind, getenv_PATH, halt, error1, ret.
  rewrite R. cbn [st_errno set_errno]. rewrite N. cbn [Z.eqb negb].
  change (st_PATH (set_errno EFAULT (set_errno e s))) with (st_PATH s).
  destruct (st_PATH s) as [p|]; [|reflexivity].
  intros C. unfold strtok_all. rewrite (strtok_from_colon_only p C).
  destruct (alloc_ok w AllocStrdup); reflexivity.
Qed.

Lemma resolution_needs_a_directory_witness :
  let w := Scene.world in
  (realpath w "shutdown" = inr ENOENT /\ ENOENT <> ENAMETOOLONG) /\
  main_resolve w "shutdown" (boot None)
  = Halt (Fault "strdup") (set_errno EFAULT (set_errno ENOENT (boot None))).
Proof.
  intros w.
  assert (N : ENOENT <> ENAMETOOLONG) by discriminate.
  split; [split; [reflexivity|exact N]|].
  exact (resolution_needs_a_directory w "shutdown" ENOENT (boot None)
           eq_refl N).
Defined.

(** ** The run in which everything succeeds *)

Section Success.

Variable w : World.

Lemma main_transition_succeeds iab options s :
  setpcap_effective w true = 0 ->
  cap_iab_set_proc w iab = 0 ->
  setpcap_effective w false = 0 ->
  (no_root options <> 0 -> activates_securebits w = 0) ->
  st_securebits s = false ->
  exists s',
    main_transition w iab options s = Cont tt s' /\
    st_trace s'
    = st_trace s
      ++ [ESetpcap true 0; ECapIabSetProc iab 0; ESetpcap false 0]
      ++ (if lock options then [ESecurebits 0] else []) /\
    st_setpcap s' = false /\ st_iab s' = Some iab /\
    st_securebits s' = lock options /\ st_PATH s' = st_PATH s.
Proof.
  intros H1 H2 H3 H4 Sb.
  unfold main_transition, bind, setpcap_effective_call, cap_iab_set_proc_call,
    activates_securebits_call, ret, lock.
  rewrite H1, H2, H3. cbn [Z.eqb negb].
  destruct (no_root options =? 0) eqn:E; cbn [negb].
  - eexists. split; [reflexivity|]. cbn. rewrite <- !app_assoc.
    repeat split. exact Sb.
  - apply Z.eqb_neq in E. rewrite (H4 E). cbn [Z.eqb negb].
    eexists. split; [reflexivity|]. cbn. rewrite <- !app_assoc.
    repeat split.
Qed.

Lemma main_resolve_finds argv0 e p dir s :
  realpath w argv0 = inr e ->
  e <> ENAMETOOLONG ->
  st_PATH s = Some p ->
  alloc_ok w AllocStrdup = true ->
  alloc_ok w AllocMalloc = true ->
  find (fun d => executable w (candidate d argv0)) (strtok_all p) = Some dir ->
  exists s',
    main_resolve w argv0 s = Cont (candidate dir argv0) s' /\
    frame s s' /\ st_trace s' = st_trace s /\ st_PATH s' = Some p.
Proof.
  intros R N P A1 A2 F. apply Z.eqb_neq in N.
  pose proof (quiet_main_resolve w argv0 s) as Q.
  unfold main_resolve, bind, realpath_null, errno, access,
    find_absolute_path_from_env, bind, getenv_PATH, halt, error1, ret in *.
  rewrite R in *. cbn [st_errno set_errno] in *. rewrite N in *.
  cbn [Z.eqb negb] in *.
  change (st_PATH (set_errno EFAULT (set_errno e s))) with (st_PATH s) in *.
  rewrite P, A1 in *.
  destruct (find_in_tokens_is_find w (strtok_all p) argv0 A2
              (set_errno EFAULT (set_errno e s))) as [s' E].
  pose proof (find_in_tokens_keeps w (strtok_all p) argv0
                (set_errno EFAULT (set_errno e s))) as K.
  cbv zeta in K. rewrite E in *. rewrite F in *. cbn [option_map state_of] in *.
  exists s'. split; [reflexivity|]. split; [exact Q|].
  destruct K as [T Pp]. split; [exact T|]. rewrite Pp. exact P.
Qed.

Lemma main_launch_succeeds options (rest : list string) argv0 environ
    e p dir s :
  fst (filtered w environ options) <= 0 ->
  fst (secure_path w (st_PATH s) (path options)) <> 0 ->
  snd (secure_path w (st_PATH s) (path options)) = Some p ->
  realpath w argv0 = inr e ->
  e <> ENAMETOOLONG ->
  alloc_ok w AllocStrdup = true ->
  alloc_ok w AllocMalloc = true ->
  find (fun d => executable w (candidate d argv0)) (strtok_all p) = Some dir ->
  execve w (candidate dir argv0) (vector rest)
    (snd (filtered w environ options)) = Ok ->
  exists s',
    main_launch w options (List.length rest) rest argv0 environ s
    = Halt (Replaced (candidate dir argv0) (vector rest)
              (snd (filtered w environ options))) s' /\
    st_trace s'
    = st_trace s ++ [EExecve (candidate dir argv0) (vector rest)
                       (snd (filtered w environ options)) Ok] /\
    st_setpcap s' = st_setpcap s /\ st_iab s' = st_iab s /\
    st_securebits s' = st_securebits s /\ st_PATH s' = Some p.
Proof.
  intros Hf Hs Hp R N A1 A2 F X.
  unfold main_launch. unfold bind at 1. unfold extern.
  unfold filtered in *.
  destruct (filter_env_vars w environ (env_keep options) (env_check options))
    as [res env].
  cbn [fst snd] in *. cbv beta iota.
  destruct (Z.gtb_spec res 0) as [G|_]; [lia|].
  unfold bind at 1. unfold getenv_PATH. unfold bind at 1.
  unfold secure_path_call. cbn [st_PATH clobber].
  apply Z.eqb_neq in Hs. rewrite Hs, Hp.
  set (s1 := with_PATH (Some p)
               (clobber w SiteSecurePath (clobber w SiteFilterEnv s))).
  assert (P1 : st_PATH s1 = Some p) by reflexivity.
  assert (K1 : st_trace s1 = st_trace s /\ st_setpcap s1 = st_setpcap s /\
               st_iab s1 = st_iab s /\ st_securebits s1 = st_securebits s)
    by (repeat split).
  destruct K1 as (T1 & B1 & C1 & D1). clearbody s1.
  destruct (main_resolve_finds argv0 e p dir s1 R N P1 A1 A2 F)
    as (s2 & E & (B2 & C2 & D2 & _) & T2 & P2).
  unfold bind. rewrite E.
  unfold sr_execve, bind, execve_call. rewrite X.
  eexists. split; [reflexivity|].
  cbn [st_trace st_setpcap st_iab st_securebits st_PATH log].
  rewrite T2, T1, B2, B1, C2, C1, D2, D1. repeat split. exact P2.
Qed.


End Success.

(** X18.  When everything succeeds, the command runs in place of the
    process.  For an identified caller, a granted command word that does
    not canonicalise, primitives that all return 0, an environment filter
    that returns no positive value, a [secure_path] that succeeds and
    leaves a PATH, and an [execve] that succeeds on the first directory of
    that PATH whose candidate is executable: the process becomes that
    candidate, with the words behind the options as arguments and the
    filtered environment.  Before that it has authenticated, raised
    CAP_SETPCAP, installed the triple, lowered CAP_SETPCAP and, if
    [no_root] is set, locked down, in this order and nothing else. *)
Theorem granted_command_is_launched (w : World) (argv environ : list string)
    (PATH : ptr) (arguments : arguments_t) (argv0 : string)
    (rest' : list string) (user : string) (auth : Z) (groups : list string)
    (iab : cap_iab_t) (options : options_t) (e : Z) (p dir : string) :
  identified w argv arguments (argv0 :: rest') user auth groups ->
  info arguments = 0 ->
  Nat.ltb (strnlen argv0 PATH_MAX) PATH_MAX = true ->
  get_settings_from_config w user groups argv0 = Some (iab, options) ->
  setpcap_effective w true = 0 ->
  cap_iab_set_proc w iab = 0 ->
  setpcap_effective w false = 0 ->
  (no_root options <> 0 -> activates_securebits w = 0) ->
  fst (filter_env_vars w environ (env_keep options) (env_check options))
  <= 0 ->
  fst (secure_path w PATH (path options)) <> 0 ->
  snd (secure_path w PATH (path options)) = Some p ->
  realpath w argv0 = inr e ->
  e <> ENAMETOOLONG ->
  alloc_ok w AllocStrdup = true ->
  alloc_ok w AllocMalloc = true ->
  find (fun d => executable w (candidate d argv0)) (strtok_all p)
  = Some dir ->
  execve w (candidate dir argv0) (vector (argv0 :: rest'))
    (snd (filter_env_vars w environ (env_keep options) (env_check options)))
  = Ok ->
  let env :=
    snd (filter_env_vars w environ (env_keep options) (env_check options)) in
  let o := fst (sr w argv environ PATH) in
  let s := snd (sr w argv environ PATH) in
  o = Replaced (candidate dir argv0) (vector (argv0 :: rest')) env /\
  st_trace s
  = EAuth user auth
    :: [ESetpcap true 0; ECapIabSetProc iab 0; ESetpcap false 0]
    ++ (if negb (no_root options =? 0) then [ESecurebits 0] else [])
    ++ [EExecve (candidate dir argv0) (vector (argv0 :: rest')) env Ok] /\
  st_setpcap s = false /\ st_iab s = Some iab /\
  st_securebits s = negb (no_root options =? 0) /\
  st_PATH s = Some p.
Proof.
  intros I Hi L C H1 H2 H3 H4 Hf Hs Hp R N A1 A2 F X.
  cbv zeta.
  assert (exists s2,
             sr w argv environ PATH
             = (Replaced (candidate dir argv0) (vector (argv0 :: rest'))
                  (snd (filtered w environ options)), s2) /\
             st_trace s2
             = ([EAuth user auth]
                ++ [ESetpcap true 0; ECapIabSetProc iab 0; ESetpcap false 0]
                ++ (if lock options then [ESecurebits 0] else []))
               ++ [EExecve (candidate dir argv0) (vector (argv0 :: rest'))
                     (snd (filtered w environ options)) Ok] /\
             st_setpcap s2 = false /\ st_iab s2 = Some iab /\
             st_securebits s2 = lock options /\ st_PATH s2 = Some p)
    as (s2 & E & T & B & Ci & D & P).
  { unfold sr, run.
    rewrite (main_identified w argv environ PATH _ _ _ _ _ I).
    rewrite Hi. cbn [Z.eqb negb].
    change (slot (argv0 :: rest') 0) with (Some argv0). cbv beta iota.
    rewrite L. unfold bind at 1.
    rewrite (main_exec_granted w _ _ _ _ _ _ _ _ _ L C).
    set (s0 := clobber w SiteConfig (after_identity w user auth PATH)).
    assert (T0 : st_trace s0 = [EAuth user auth]) by reflexivity.
    assert (P0 : st_PATH s0 = PATH) by reflexivity.
    assert (S0 : st_securebits s0 = false) by reflexivity.
    clearbody s0.
    destruct (main_transition_succeeds w iab options s0 H1 H2 H3 H4 S0)
      as (s1 & E1 & T1 & B1 & C1 & D1 & P1).
    unfold bind at 1. rewrite E1.
    rewrite <- P0, <- P1 in Hs, Hp.
    destruct (main_launch_succeeds w options (argv0 :: rest') argv0 environ
                e p dir s1 Hf Hs Hp R N A1 A2 F X)
      as (s2 & E2 & T2 & B2 & C2 & D2 & P2).
    rewrite E2. exists s2. split; [reflexivity|].
    rewrite T2, T1, T0, B2, B1, C2, C1, D2, D1. repeat split. exact P2. }
  rewrite E. cbn [fst snd]. unfold filtered, lock in *.
  repeat split; assumption.
Qed.

Lemma granted_command_is_launched_witness :
  let w := Scene.world in
  let argv := ["sr"; "shutdown"; "-h"; "now"]%string in
  let r := sr w argv Scene.environ Scene.PATH in
  identified w argv (mk_arguments None 0 0 0)
    ["shutdown"; "-h"; "now"]%string "alice" 1 ["alice"; "ops"]%string /\
  fst r = Replaced "/usr/sbin/shutdown"
            [Some "shutdown"; Some "-h"; Some "now"; None]%string
            ["TERM=xterm"; "LANG=C"]%string /\
  st_trace (snd r)
  = [EAuth "alice" 1; ESetpcap true 0;
     ECapIabSetProc (mk_iab [] [Scene.CAP_SYS_BOOT] []) 0; ESetpcap false 0;
     EExecve "/usr/sbin/shutdown"
       [Some "shutdown"; Some "-h"; Some "now"; None]%string
       ["TERM=xterm"; "LANG=C"]%string Ok] /\
  st_PATH (snd r) = Some "/usr/sbin:/usr/bin"%string.
Proof.
  intros w argv r.
  assert (I : identified w argv (mk_arguments None 0 0 0)
                ["shutdown"; "-h"; "now"]%string "alice" 1
                ["alice"; "ops"]%string).
  { repeat split; try reflexivity; try discriminate.
    exists 3%nat. reflexivity. }
  assert (H4 : no_root Scene.ops_options <> 0 -> activates_securebits w = 0)
    by (intros _; reflexivity).
  assert (Hf : fst (filter_env_vars w Scene.environ
                      (env_keep Scene.ops_options)
                      (env_check Scene.ops_options)) <= 0)
    by (cbn; lia).
  assert (Hs : fst (secure_path w Scene.PATH (path Scene.ops_options)) <> 0)
    by discriminate.
  assert (N : ENOENT <> ENAMETOOLONG) by discriminate.
  split; [exact I|].
  destruct (granted_command_is_launched w argv Scene.environ Scene.PATH
              (mk_arguments None 0 0 0) "shutdown" ["-h"; "now"]%string
              "alice" 1 ["alice"; "ops"]%string
              (mk_iab [] [Scene.CAP_SYS_BOOT] []) Scene.ops_options
              ENOENT "/usr/sbin:/usr/bin" "/usr/sbin"
              I eq_refl eq_refl eq_refl eq_refl eq_refl eq_refl H4 Hf Hs
              eq_refl eq_refl N eq_refl eq_refl eq_refl eq_refl)
    as (O & T & _ & _ & _ & P).
  repeat split; assumption.
Defined.

(** ** Names that are too long *)






